(** * Proyecto_Streaming: the data-cleaning helpers of [scripts/utils.py]

    A shallow embedding of the helpers that transform a pandas
    [DataFrame] ([elegir_imputacion], [estandarizar_nombres_columnas],
    [convertir_a_fecha], [limpiar_texto], [resumen_nulos], [evaluar_fila])
    together with the pieces of pandas, numpy and scipy they call, and the
    properties of them.  [cargar_datos] is [pd.read_csv] and nothing else:
    reading a file is outside this development.

    The libraries are followed as the code uses them: [groupby] with its
    default [dropna=True], [np.nanpercentile] with linear interpolation,
    and [scipy.stats.mode] returning arrays, which is what the indexing
    [mode(...)[0][0]] of the code is written for (scipy before 1.11).

    Conventions of the embedding.
    - A float64 value is an exact rational ([Qc]); [None] is NaN.  Rounding
      is not modelled.
    - A column is typed: numeric (float64), text (dtype [object], as
      pandas has it before 3.0, holding strings or nulls) or date
      ([datetime64], [None] is NaT).
    - A [DataFrame] is a Python object: the helpers receive a reference
      into a store and mutate the frame it points to, the way
      [df[columna] = ...] does.
    - A Python exception is a [Raise] result; the store keeps the
      mutations done before it. *)

From Stdlib Require Import QArith Qcanon Ascii String.
From stdpp Require Import base option list sorting strings numbers.

Local Open Scope Qc_scope.

(** ** Exceptions *)

Inductive excepcion :=
| KeyError | IndexError | ValueError | TypeError | AttributeError
| NameError. (* a reference that is not in the store *)

Inductive resultado (A : Type) :=
| Ok (a : A)
| Raise (e : excepcion).
Arguments Ok {A} a.
Arguments Raise {A} e.

#[global] Instance excepcion_eq_dec : EqDecision excepcion.
Proof. solve_decision. Defined.

#[global] Instance resultado_ret : MRet resultado := @Ok.
#[global] Instance resultado_bind : MBind resultado := λ A B f m,
  match m with Ok a => f a | Raise e => Raise e end.

(** [try: m  except e: h] *)
Definition try_except {A} (m : resultado A) (e : excepcion) (h : resultado A)
  : resultado A :=
  match m with
  | Ok a => Ok a
  | Raise e' => if decide (e' = e) then h else Raise e'
  end.

(** [a[i]] on a numpy array or a tuple of arrays. *)
Definition indexar {A} (a : list A) (i : nat) : resultado A :=
  match a !! i with Some x => Ok x | None => Raise IndexError end.

(** ** Numeric series: what numpy, scipy and pandas compute on a group *)

Module Stats.

(** [series.dropna()] *)
Definition dropna (s : list (option Qc)) : list Qc := omap id s.

(** [series.fillna(v)]: every null becomes [v]; filling with NaN changes
    nothing. *)
Definition fillna (v : option Qc) (s : list (option Qc)) : list (option Qc) :=
  (λ c, match c with Some x => Some x | None => v end) <$> s.

Definition ordenar (a : list Qc) : list Qc := merge_sort Qcle a.

(** One percentile of an array without NaN, with the default linear
    interpolation of numpy.  The virtual index is [(n-1) * p / 100]; the
    value is interpolated between its two neighbours. *)
Definition percentil (a : list Qc) (p : nat) : option Qc :=
  let s := ordenar a in
  let n := length s in
  match n with
  | O => None
  | S m =>
      let pos := (m * p)%nat in
      let i := (pos / 100)%nat in
      let j := (Nat.min (i + 1) m)%nat in
      let g := Qc_of_Z (Z.of_nat (pos mod 100)) / Qc_of_Z 100 in
      lo ← s !! i; hi ← s !! j; Some (lo + (hi - lo) * g)
  end.

(** What a numpy reduction hands back: an array, or one number. *)
Inductive salida :=
| Escalar (x : option Qc)
| Arreglo (v : list (option Qc)).

(** [np.nanpercentile(a, q)] for a list [q] of percentiles, on an array
    without NaN.  numpy deals with an empty array up front
    ([if a.size == 0: return np.nanmean(a, axis, ...)]) and so returns one
    NaN for it, with a warning, not an array of the shape of [q]. *)
Definition nanpercentile (a : list Qc) (q : list nat) : salida :=
  match a with
  | [] => Escalar None
  | _ => Arreglo (percentil a <$> q)
  end.

(** [grupo.median()]: the median of the non-null values, NaN when there is
    none. *)
Definition median (s : list (option Qc)) : option Qc :=
  let v := ordenar (dropna s) in
  let n := length v in
  match n with
  | O => None
  | _ =>
      if Nat.odd n then v !! (n / 2)%nat
      else lo ← v !! (n / 2 - 1)%nat; hi ← v !! (n / 2)%nat;
           Some ((lo + hi) / Qc_of_Z 2)
  end.

(** [np.sum(a == score)] *)
Definition contar (score : Qc) (a : list Qc) : nat :=
  length (filter (λ x, x = score) a).

(** [np.unique(a)]: the distinct values, ascending. *)
Definition unique (a : list Qc) : list Qc := remove_dups (ordenar a).

(** One turn of the loop of [scipy.stats.mode]: a score replaces the
    current mode only when it is strictly more frequent. *)
Definition mode_paso (a : list Qc) (acc : Qc * nat) (score : Qc) : Qc * nat :=
  let n := contar score a in
  if (acc.2 <? n)%nat then (score, n) else acc.

(** [scipy.stats.mode(a)] on a one-dimensional array: the pair (array of
    modes, array of counts), both of length one, and both empty for an
    empty input. *)
Definition mode (a : list Qc) : list Qc * list nat :=
  match a with
  | [] => ([], [])
  | _ => let r := foldl (mode_paso a) (Qc_of_Z 0, O) (unique a) in
         ([r.1], [r.2])
  end.

(** [x - y] and [x > y] on floats: NaN propagates through the subtraction
    and compares false. *)
Definition resta (x y : option Qc) : option Qc :=
  a ← x; b ← y; Some (a - b).
Definition mayor (x : option Qc) (y : Qc) : bool :=
  match x with Some a => bool_decide (y < a) | None => false end.

End Stats.

(** ** The inner functions of [elegir_imputacion] *)

(** [q1, q3 = valor]: Python unpacks an array of two items; a number is
    not iterable ([TypeError]) and another length is a [ValueError]. *)
Definition desempaquetar (valor : Stats.salida)
  : resultado (option Qc * option Qc) :=
  match valor with
  | Stats.Arreglo [x; y] => Ok (x, y)
  | Stats.Arreglo _ => Raise ValueError
  | Stats.Escalar _ => Raise TypeError
  end.

Definition calcular_iqr (series : list (option Qc)) : resultado (option Qc) :=
  par ← desempaquetar (Stats.nanpercentile (Stats.dropna series) [25; 75]%nat);
  Ok (Stats.resta par.2 par.1).

(** In [mode(...)[0][0]] the first index takes the array of modes out of
    the result and the second its first item. *)
Definition imputar_fecha (umbral_dispersion : Qc) (grupo : list (option Qc))
  : resultado (list (option Qc)) :=
  dispersion ← calcular_iqr grupo;
  if Stats.mayor dispersion umbral_dispersion then
    Ok (Stats.fillna (Stats.median grupo) grupo)
  else
    try_except
      (m ← indexar (Stats.mode (Stats.dropna grupo)).1 0;
       Ok (Stats.fillna (Some m) grupo))
      IndexError
      (Ok (Stats.fillna (Stats.median grupo) grupo)).

(** ** Columns and frames *)

Inductive celda := CNum (q : Qc) | CTexto (s : string) | CFecha (z : Z).

Inductive Series :=
| SNum (v : list (option Qc))       (* float64 *)
| STexto (v : list (option string)) (* object *)
| SFecha (v : list (option Z)).     (* datetime64[ns] *)

Inductive tipo := Float64 | Object | Datetime64.

#[global] Instance celda_eq_dec : EqDecision celda.
Proof. solve_decision. Defined.
#[global] Instance Series_eq_dec : EqDecision Series.
Proof. solve_decision. Defined.
#[global] Instance tipo_eq_dec : EqDecision tipo.
Proof. solve_decision. Defined.

Definition dtype (s : Series) : tipo :=
  match s with SNum _ => Float64 | STexto _ => Object | SFecha _ => Datetime64 end.

(** The values of a column, whatever its type; [None] is the null. *)
Definition celdas (s : Series) : list (option celda) :=
  match s with
  | SNum v => option_map CNum <$> v
  | STexto v => option_map CTexto <$> v
  | SFecha v => option_map CFecha <$> v
  end.

(** [series.isnull()] and [series.notnull()] *)
Definition isnull (s : Series) : list bool :=
  (λ c, bool_decide (c = None)) <$> celdas s.
Definition notnull (s : Series) : list bool := negb <$> isnull s.

(** [series[mask]]: the rows whose mask is true. *)
Definition filtrar {A} (mask : list bool) (l : list A) : list A :=
  (filter (λ p, p.1 = true) (zip mask l)).*2.

Definition seleccionar (mask : list bool) (s : Series) : Series :=
  match s with
  | SNum v => SNum (filtrar mask v)
  | STexto v => STexto (filtrar mask v)
  | SFecha v => SFecha (filtrar mask v)
  end.

(** A frame: the row labels and the columns in their order. *)
Record DataFrame := mkDF {
  index : list nat;
  datos : list (string * Series)
}.

#[global] Instance DataFrame_eq_dec : EqDecision DataFrame.
Proof. solve_decision. Defined.

Definition columns (d : DataFrame) : list string := (datos d).*1.

(** Every column has one value per row label. *)
Definition bien_formado (d : DataFrame) : bool :=
  forallb (λ c, Nat.eqb (length (celdas c.2)) (length (index d))) (datos d).

Fixpoint obtener {K V} `{EqDecision K} (c : K) (l : list (K * V)) : option V :=
  match l with
  | [] => None
  | (c', s) :: l' => if decide (c' = c) then Some s else obtener c l'
  end.

(** A column assigned keeps its place; a new one goes last. *)
Fixpoint poner (c : string) (s : Series) (l : list (string * Series))
  : list (string * Series) :=
  match l with
  | [] => [(c, s)]
  | (c', s') :: l' =>
      if decide (c' = c) then (c, s) :: l' else (c', s') :: poner c s l'
  end.

(** [df[c]] *)
Definition getitem (d : DataFrame) (c : string) : resultado Series :=
  match obtener c (datos d) with Some s => Ok s | None => Raise KeyError end.

(** The frame after [df[c] = s]. *)
Definition con_columna (d : DataFrame) (c : string) (s : Series) : DataFrame :=
  mkDF (index d) (poner c s (datos d)).

(** [df[mask]]: a new frame with the rows whose mask is true. *)
Definition filas (d : DataFrame) (mask : list bool) : DataFrame :=
  mkDF (filtrar mask (index d)) (prod_map id (seleccionar mask) <$> datos d).

(** [df.drop(columns=[c])] on a frame that has the column. *)
Definition drop (d : DataFrame) (c : string) : DataFrame :=
  mkDF (index d) (filter (λ p, p.1 ≠ c) (datos d)).

(** ** The store of frames *)

Abbreviation ref := nat (only parsing).
Abbreviation almacen := (list DataFrame) (only parsing).

Definition M (A : Type) : Type := almacen → resultado A * almacen.

#[global] Instance M_ret : MRet M := λ A a h, (Ok a, h).
#[global] Instance M_bind : MBind M := λ A B f m h,
  match m h with
  | (Ok a, h') => f a h'
  | (Raise e, h') => (Raise e, h')
  end.

Definition lift {A} (r : resultado A) : M A := λ h, (r, h).

Definition leer (r : ref) : M DataFrame := λ h,
  match h !! r with Some d => (Ok d, h) | None => (Raise NameError, h) end.

Definition nuevo (d : DataFrame) : M ref := λ h, (Ok (length h), h ++ [d]).

(** [df[c] = s]: the frame [df] points to is changed in place. *)
Definition setitem (df : ref) (c : string) (s : Series) : M unit := λ h,
  match h !! df with
  | Some d => (Ok (), <[df := con_columna d c s]> h)
  | None => (Raise NameError, h)
  end.

(** [for x in l: cuerpo x] *)
Fixpoint para {A} (l : list A) (cuerpo : A → M unit) : M unit :=
  match l with
  | [] => mret ()
  | x :: l' => cuerpo x;; para l' cuerpo
  end.

(** [mapM] on results: the first exception stops the traversal. *)
Fixpoint recorrer {A B} (f : A → resultado B) (l : list A) : resultado (list B) :=
  match l with
  | [] => Ok []
  | x :: l' => y ← f x; ys ← recorrer f l'; Ok (y :: ys)
  end.

(** ** [df.groupby(agrupacion)[columna].transform(func)] *)

(** The key of a row: its values in the grouping columns. *)
Definition clave := list (option celda).

Definition claves_de (cols : list Series) (n : nat) : list clave :=
  (λ i, (λ s, default None (celdas s !! i)) <$> cols) <$> seq 0 n.

(** [df.groupby(agrupacion)]: the key of every row.  A grouping column
    that is missing is a [KeyError]; no grouping column at all is a
    [ValueError]. *)
Definition groupby (d : DataFrame) (agrupacion : list string)
  : resultado (list clave) :=
  match agrupacion with
  | [] => Raise ValueError
  | _ =>
      cols ← recorrer (getitem d) agrupacion;
      Ok (claves_de cols (length (index d)))
  end.

(** The target values of the rows whose key is [k], in row order. *)
Definition grupo (k : clave) (claves : list clave) (vals : list (option Qc))
  : list (option Qc) :=
  (filter (λ p, p.1 = k) (zip claves vals)).*2.

(** How many of the rows before this one carry the key [k]: the place of
    the row within its group. *)
Definition posicion (k : clave) (previas : list clave) : nat :=
  length (filter (λ k', k' = k) previas).

(** The groups.  [groupby] has [dropna=True] by default: a row whose key
    has a null in it is dropped, so that such a key names no group.
    (pandas visits the groups in key order; the order plays no part in
    the result.) *)
Definition nombres (claves : list clave) : list clave :=
  remove_dups (filter (λ k, None ∉ k) claves).

(** [transform] calls [func] once per group and puts every value it
    returns back at the row it came from.  A row that is in no group has
    no value in the result: pandas puts NaN there (since 1.5 in the
    result itself, before that when the result is assigned to the
    column). *)
Definition transform (func : list (option Qc) → resultado (list (option Qc)))
    (claves : list clave) (vals : list (option Qc))
  : resultado (list (option Qc)) :=
  tabla ← recorrer (λ k, r ← func (grupo k claves vals); Ok (k, r))
                   (nombres claves);
  Ok (imap (λ i k,
        match obtener k tabla with
        | Some r => default None (r !! posicion k (take i claves))
        | None => None
        end) claves).

(** The target of [elegir_imputacion] is a numeric column. *)
Definition numerica (s : Series) : resultado (list (option Qc)) :=
  match s with SNum v => Ok v | _ => Raise TypeError end.

(** ** [elegir_imputacion] *)

Definition elegir_imputacion (df : ref) (columna : string)
    (agrupacion : list string) (umbral_dispersion : Qc) : M ref :=
  (* df[columna] = df.groupby(agrupacion)[columna].transform(imputar_fecha) *)
  d ← leer df;
  claves ← lift (groupby d agrupacion);
  serie ← lift (getitem d columna);
  vals ← lift (numerica serie);
  res ← lift (transform (imputar_fecha umbral_dispersion) claves vals);
  setitem df columna (SNum res);;
  (* return df *)
  mret df.

(** [df[c]] through the reference. *)
Definition leer_columna (df : ref) (c : string) : M Series :=
  d ← leer df; lift (getitem d c).

(** ** Text: [str.strip] and [str.lower]

    On the ASCII range the whitespace of Python is 9..13 and 28..32, and
    only [A-Z] has a lower case. *)

Definition isspace (a : ascii) : bool :=
  let n := nat_of_ascii a in
  (Nat.leb 9 n && Nat.leb n 13) || (Nat.leb 28 n && Nat.leb n 32).

Definition tolower (a : ascii) : ascii :=
  let n := nat_of_ascii a in
  if Nat.leb 65 n && Nat.leb n 90 then ascii_of_nat (n + 32) else a.

Fixpoint lstrip (l : list ascii) : list ascii :=
  match l with
  | [] => []
  | a :: l' => if isspace a then lstrip l' else l
  end.

Definition rstrip (l : list ascii) : list ascii := reverse (lstrip (reverse l)).

Definition strip (s : string) : string :=
  string_of_list_ascii (rstrip (lstrip (list_ascii_of_string s))).

Definition lower (s : string) : string :=
  string_of_list_ascii (tolower <$> list_ascii_of_string s).

(** [series.str.strip()] and [series.str.lower()]: nulls stay null; the
    accessor exists on text columns only. *)
Definition str_strip (s : Series) : resultado Series :=
  match s with
  | STexto v => Ok (STexto (option_map strip <$> v))
  | _ => Raise AttributeError
  end.

Definition str_lower (s : Series) : resultado Series :=
  match s with
  | STexto v => Ok (STexto (option_map lower <$> v))
  | _ => Raise AttributeError
  end.

(** ** [estandarizar_nombres_columnas] *)

(** [s.replace(viejo, nuevo)] for two strings of one character: every
    [viejo] of [s] becomes [nuevo]. *)
Definition replace (viejo nuevo : ascii) (s : string) : string :=
  string_of_list_ascii
    ((λ a, if decide (a = viejo) then nuevo else a) <$> list_ascii_of_string s).

(** [df.columns = nuevos]: the columns are renamed in their order; pandas
    refuses a list of another length with a [ValueError]. *)
Definition set_columns (df : ref) (nuevos : list string) : M unit := λ h,
  match h !! df with
  | Some d =>
      if decide (length nuevos = length (datos d))
      then (Ok (), <[df := mkDF (index d) (zip nuevos (datos d).*2)]> h)
      else (Raise ValueError, h)
  | None => (Raise NameError, h)
  end.

Definition estandarizar_nombres_columnas (df : ref) : M ref :=
  (* df.columns = df.columns.str.lower().str.replace(' ', '_') *)
  d ← leer df;
  set_columns df (replace " " "_" <$> (lower <$> columns d));;
  (* return df *)
  mret df.

(** ** [limpiar_texto] *)

(** The body of the loop of [limpiar_texto]. *)
Definition limpiar_columna (df : ref) (conservar_mayusculas : list string)
    (columna : string) : M unit :=
  d ← leer df;
  es_texto ←
    (if bool_decide (columna ∈ columns d)
     then s ← leer_columna df columna; mret (bool_decide (dtype s = Object))
     else mret false);
  if (es_texto : bool) then
    s ← leer_columna df columna;
    s' ← lift (str_strip s);
    setitem df columna s';;
    if bool_decide (columna ∉ conservar_mayusculas) then
      s ← leer_columna df columna;
      s' ← lift (str_lower s);
      setitem df columna s'
    else mret ()
  else mret ().

Definition limpiar_texto (df : ref) (columnas : list string)
    (conservar_mayusculas : list string) : M ref :=
  para columnas (limpiar_columna df conservar_mayusculas);;
  mret df.

(** ** [convertir_a_fecha] *)

Inductive errores := ErrRaise | ErrCoerce.

Section Fechas.

(** The date parser of pandas is not part of this development: what it
    reads in a string of a column (it guesses the format from the column),
    and the instant it gives to a number. *)
Variable parse_texto : list (option string) → string → option Z.
Variable parse_numero : Qc → option Z.

Definition convertir {A} (errors : errores) (parse : A → option Z)
    (c : option A) : resultado (option Z) :=
  match c with
  | None => Ok None
  | Some x =>
      match parse x with
      | Some z => Ok (Some z)
      | None =>
          match errors with
          | ErrCoerce => Ok None
          | ErrRaise => Raise ValueError
          end
      end
  end.

(** [pd.to_datetime(series, errors=...)] *)
Definition to_datetime (errors : errores) (s : Series) : resultado Series :=
  match s with
  | SFecha v => Ok (SFecha v)
  | STexto v =>
      v' ← recorrer (convertir errors (parse_texto v)) v; Ok (SFecha v')
  | SNum v => v' ← recorrer (convertir errors parse_numero) v; Ok (SFecha v')
  end.

(** The body of the loop of [convertir_a_fecha]. *)
Definition convertir_columna (df : ref) (columna : string) : M unit :=
  s ← leer_columna df columna;
  s' ← lift (to_datetime ErrCoerce s);
  setitem df columna s'.

Definition convertir_a_fecha (df : ref) (columnas : list string) : M ref :=
  para columnas (convertir_columna df);;
  mret df.

(** [to_datetime] with [errors='coerce'], in closed form. *)
Definition a_fecha (s : Series) : Series :=
  match s with
  | SFecha v => SFecha v
  | STexto v => SFecha ((λ c, c ≫= parse_texto v) <$> v)
  | SNum v => SFecha ((λ c, c ≫= parse_numero) <$> v)
  end.

End Fechas.

(** ** [resumen_nulos] *)

(** [n / m] on numpy numbers, for [n ≤ m]: [0 / 0] is NaN. *)
Definition dividir (n m : nat) : option Qc :=
  match m with
  | O => None
  | _ => Some (Qc_of_Z (Z.of_nat n) / Qc_of_Z (Z.of_nat m))
  end.

(** A row of the summary frame, labelled by the column it describes. *)
Record fila_resumen := mkResumen {
  nombre : string;
  cantidad_nulos : nat;
  porcentaje_nulos : option Qc
}.

(** [series.isnull().sum()] *)
Definition contar_nulos (s : Series) : nat :=
  length (filter (λ b, b = true) (isnull s)).

(** Descending, NaN last. *)
Definition antes (a b : fila_resumen) : Prop :=
  match porcentaje_nulos a, porcentaje_nulos b with
  | Some x, Some y => y ≤ x
  | _, None => True
  | None, Some _ => False
  end.

#[global] Instance antes_dec : RelDecision antes.
Proof.
  intros a b. unfold antes.
  destruct (porcentaje_nulos a), (porcentaje_nulos b); apply _.
Defined.

(** [resumen.sort_values(by="porcentaje_nulos", ascending=False)].  The
    order pandas leaves among equal percentages is not fixed by its
    documentation; this sort keeps them as they come. *)
Definition sort_values (l : list fila_resumen) : list fila_resumen :=
  merge_sort antes l.

Definition resumen_nulos (df : ref) : M (list fila_resumen) :=
  d ← leer df;
  let resumen := (λ p, (p.1, contar_nulos p.2)) <$> datos d in
  let resumen :=
    (λ p, mkResumen p.1 p.2
            (x ← dividir p.2 (length (index d)); Some (x * Qc_of_Z 100)))
      <$> resumen in
  mret (sort_values resumen).

(** ** [evaluar_fila] *)

Definition proporcion_datos_importantes : string :=
  "proporcion_datos_importantes".

(** [frame.notnull().sum(axis=1)] on the columns [cols] of a frame of [n]
    rows: the non-null flags of the columns added up along every row. *)
Definition contar_no_nulos (cols : list Series) (n : nat) : list nat :=
  foldr (λ s acc, zip_with Nat.add (Nat.b2n <$> notnull s) acc)
        (replicate n 0%nat) cols.

(** [series < umbral] on a numeric column; NaN compares false. *)
Definition menor (s : Series) (umbral : Qc) : resultado (list bool) :=
  match s with
  | SNum v =>
      Ok ((λ c, match c with
                | Some x => bool_decide (x < umbral)
                | None => false
                end) <$> v)
  | _ => Raise TypeError
  end.

Definition evaluar_fila (df : ref) (columna_nula : string)
    (columnas_clave : list string) (umbral : Qc) : M ref :=
  (* df_nulo = df[df[columna_nula].isnull()].copy() *)
  d ← leer df;
  s ← lift (getitem d columna_nula);
  seleccion ← nuevo (filas d (isnull s));
  d ← leer seleccion;
  df_nulo ← nuevo d;
  (* df_nulo[...] = df_nulo[columnas_clave].notnull().sum(axis=1)
                    / len(columnas_clave) *)
  d ← leer df_nulo;
  clave ← lift (recorrer (getitem d) columnas_clave);
  let cuenta := contar_no_nulos clave (length (index d)) in
  setitem df_nulo proporcion_datos_importantes
    (SNum ((λ n, dividir n (length columnas_clave)) <$> cuenta));;
  (* filas_a_eliminar = df_nulo[df_nulo[...] < umbral] *)
  d ← leer df_nulo;
  p ← lift (getitem d proporcion_datos_importantes);
  mask ← lift (menor p umbral);
  filas_a_eliminar ← nuevo (filas d mask);
  (* return filas_a_eliminar.drop(columns=[...]) *)
  d ← leer filas_a_eliminar;
  nuevo (drop d proporcion_datos_importantes).

(** ** What the specification says of [elegir_imputacion] *)

(** The mode in the words of the specification: a value of the array that
    no value outnumbers, and the smallest of those as frequent as it. *)
Definition es_moda (m : Qc) (a : list Qc) : Prop :=
  m ∈ a ∧
  ∀ x, x ∈ a →
    (Stats.contar x a < Stats.contar m a)%nat
    ∨ (Stats.contar x a = Stats.contar m a ∧ m ≤ x).

(** The fill value of a group whose non-null values are [a]: the 50th
    percentile when the 75th exceeds the 25th by more than the threshold,
    the mode otherwise. *)
Definition relleno_segun_spec (umbral : Qc) (a : list Qc) (v : Qc) : Prop :=
  ∃ q1 q3,
    Stats.percentil a 25 = Some q1 ∧ Stats.percentil a 75 = Some q3 ∧
    if decide (umbral < q3 - q1) then Stats.percentil a 50 = Some v
    else es_moda v a.

(** Every null of a group that has a value is filled as the specification
    says.  [en_grupo] tells which keys name a group. *)
Definition imputa_grupos (en_grupo : clave → Prop) (umbral : Qc)
    (claves : list clave) (vals res : list (option Qc)) : Prop :=
  ∀ i k,
    claves !! i = Some k → en_grupo k → vals !! i = Some None →
    Stats.dropna (grupo k claves vals) ≠ [] →
    ∃ v, res !! i = Some (Some v)
         ∧ relleno_segun_spec umbral (Stats.dropna (grupo k claves vals)) v.

(** After the call a group that had a value has no null left, and a group
    without any value is still all null. *)
Definition sin_nulos_en_grupos (en_grupo : clave → Prop)
    (claves : list clave) (vals res : list (option Qc)) : Prop :=
  ∀ i k,
    claves !! i = Some k →
    (en_grupo k → Stats.dropna (grupo k claves vals) ≠ [] →
     ∃ v, res !! i = Some (Some v))
    ∧ (Stats.dropna (grupo k claves vals) = [] → res !! i = Some None).

(** ** What the code computes, in closed form *)

(** The value [imputar_fecha] fills a group with, when the group has a
    value. *)
Definition relleno (umbral : Qc) (g : list (option Qc)) : option Qc :=
  let a := Stats.dropna g in
  if Stats.mayor (Stats.resta (Stats.percentil a 75) (Stats.percentil a 25))
       umbral
  then Stats.median g
  else match (Stats.mode a).1 !! 0%nat with
       | Some m => Some m
       | None => Stats.median g
       end.

(** Every group has a non-null target value. *)
Definition cada_grupo_con_valor (claves : list clave)
    (vals : list (option Qc)) : bool :=
  forallb (λ k, negb (bool_decide (Stats.dropna (grupo k claves vals) = [])))
          (nombres claves).

(** The column [transform(imputar_fecha)] returns. *)
Definition imputado (umbral : Qc) (claves : list clave)
    (vals : list (option Qc)) : list (option Qc) :=
  zip_with (λ k v,
    if decide (None ∈ k) then None
    else match v with
         | Some x => Some x
         | None => relleno umbral (grupo k claves vals)
         end) claves vals.

(** One column rewritten by [f], when the frame has it. *)
Definition aplicar (f : string → Series → Series) (c : string)
    (d : DataFrame) : DataFrame :=
  match obtener c (datos d) with
  | Some s => con_columna d c (f c s)
  | None => d
  end.

(** What [limpiar_texto] does to a column it is given. *)
Definition limpia_serie (conservar_mayusculas : list string) (c : string)
    (s : Series) : Series :=
  match s with
  | STexto v =>
      STexto (option_map (if decide (c ∈ conservar_mayusculas) then strip
                          else λ t, lower (strip t)) <$> v)
  | _ => s
  end.

(** The summary before it is sorted, in the words of the specification:
    for every column its name, the number of its nulls, and that number
    over the number of rows, times 100. *)
Definition resumen_de (d : DataFrame) : list fila_resumen :=
  (λ p, let n := length (filter (λ c, c = None) (celdas p.2)) in
        mkResumen p.1 n
          (match length (index d) with
           | O => None
           | S m => Some (Qc_of_Z (Z.of_nat n) / Qc_of_Z (Z.of_nat (S m))
                          * Qc_of_Z 100)
           end)) <$> datos d.

(** The rows [evaluar_fila] keeps, as the code computes them: the mask of
    the null targets, and on it the count of the key columns. *)
Definition mascara (s : Series) (cols : list Series) (n_clave : nat)
    (umbral : Qc) (n : nat) : list bool :=
  zip_with (λ (nulo : bool) (cuenta : nat),
      nulo && match dividir cuenta n_clave with
              | Some x => bool_decide (x < umbral)
              | None => false
              end)
    (isnull s) (contar_no_nulos cols n).

(** The same rows in the words of the specification: the row [i] is a
    candidate when its target is null and the share of the key columns
    that have a value in the row is below the threshold. *)
Definition presente (s : Series) (i : nat) : bool :=
  match celdas s !! i with Some (Some _) => true | _ => false end.

Definition candidata (s : Series) (cols : list Series) (umbral : Qc)
    (i : nat) : bool :=
  bool_decide (celdas s !! i = Some None)
  && match dividir (length (filter (λ c, presente c i = true) cols))
                   (length cols) with
     | Some x => bool_decide (x < umbral)
     | None => false
     end.

Definition candidatas (s : Series) (cols : list Series) (umbral : Qc)
    (n : nat) : list bool :=
  candidata s cols umbral <$> seq 0 n.

(** The name [estandarizar_nombres_columnas] gives to a column, and the
    frame it leaves. *)
Definition estandar (c : string) : string := replace " " "_" (lower c).

Definition estandarizado (d : DataFrame) : DataFrame :=
  mkDF (index d) (prod_map estandar id <$> datos d).

(** ** Frames used as examples *)

Definition num (z : Z) : option Qc := Some (Qc_of_Z z).

(** Two groups: [A] = 10, 20, null, 15 and [B] = 10, null, 900, 5, 1000. *)
Definition ej_grupos : DataFrame :=
  mkDF [0; 1; 2; 3; 4; 5; 6; 7; 8]%nat
    [("g", STexto [Some "A"; Some "A"; Some "A"; Some "A";
                   Some "B"; Some "B"; Some "B"; Some "B"; Some "B"]);
     ("x", SNum [num 10; num 20; None; num 15;
                 num 10; None; num 900; num 5; num 1000])].

Definition ej_grupos_claves : list clave :=
  claves_de [STexto [Some "A"; Some "A"; Some "A"; Some "A";
                     Some "B"; Some "B"; Some "B"; Some "B"; Some "B"]] 9.

Definition ej_grupos_vals : list (option Qc) :=
  [num 10; num 20; None; num 15; num 10; None; num 900; num 5; num 1000].

(** A group with a value and a group without: [A] = 10, null and
    [C] = null, null. *)
Definition ej_grupo_nulo : DataFrame :=
  mkDF [0; 1; 2; 3]%nat
    [("g", STexto [Some "A"; Some "A"; Some "C"; Some "C"]);
     ("x", SNum [num 10; None; None; None])].

(** A row in the group [a], and two rows without a grouping value, one
    of them with a target. *)
Definition ej_clave_nula : DataFrame :=
  mkDF [0; 1; 2]%nat
    [("g", STexto [Some "a"; None; None]); ("x", SNum [num 1; num 5; None])].

(** The group [a] = 1, null, and a row without a grouping value whose
    target is 5. *)
Definition ej_valor_sin_clave : DataFrame :=
  mkDF [0; 1; 2]%nat
    [("g", STexto [Some "a"; Some "a"; None]);
     ("x", SNum [num 1; None; num 5])].


(** Two text columns and a numeric one. *)
Definition ej_texto : DataFrame :=
  mkDF [0; 1; 2]%nat
    [("titulo", STexto [Some "  The Matrix "; None; Some "AVATAR"]);
     ("pais", STexto [Some " US "; Some "mx"; None]);
     ("anio", SNum [num 1999; None; num 2009])].

(** A parser that knows one date. *)
Definition parse_ej (v : list (option string)) (t : string) : option Z :=
  if decide (t = "2020-01-01") then Some 18262%Z else None.

Definition ej_fechas : DataFrame :=
  mkDF [0; 1; 2]%nat
    [("alta", STexto [Some "2020-01-01"; Some "ayer"; None]);
     ("anio", SNum [num 1999; None; num 2009])].

(** A frame that has a column with the name [evaluar_fila] uses for its
    working column. *)
Definition ej_choque : DataFrame :=
  mkDF [0]%nat
    [("x", SNum [None]); ("proporcion_datos_importantes", SNum [num 1])].

Definition ej_filas : DataFrame :=
  mkDF [0; 1; 2; 3]%nat
    [("x", SNum [None; num 3; None; None]);
     ("a", STexto [Some "u"; None; None; Some "v"]);
     ("b", SNum [num 1; None; None; None])].

(** Names as they come in a catalogue of titles. *)
Definition ej_nombres : DataFrame :=
  mkDF [0; 1]%nat
    [("Show ID", STexto [Some "s1"; Some "s2"]);
     ("Date Added", STexto [Some "2020-01-01"; None]);
     ("release_year", SNum [num 2019; num 2020])].

(** * Properties *)

(** ** Order statistics *)

Module StatsFacts.
Import Stats.

Lemma ordenar_perm a : ordenar a ≡ₚ a.
Proof. apply merge_sort_Permutation. Qed.

Lemma ordenar_length a : length (ordenar a) = length a.
Proof. by rewrite ordenar_perm. Qed.

Lemma ordenar_sorted a : StronglySorted Qcle (ordenar a).
Proof. apply StronglySorted_merge_sort; apply _. Qed.

Lemma elem_of_ordenar a x : x ∈ ordenar a ↔ x ∈ a.
Proof. by rewrite ordenar_perm. Qed.

Lemma peso_0 : Qc_of_Z (Z.of_nat 0) / Qc_of_Z 100 = 0.
Proof. apply Qc_is_canon. reflexivity. Qed.

Lemma peso_50 : Qc_of_Z (Z.of_nat 50) / Qc_of_Z 100 = 1 / (1 + 1).
Proof. apply Qc_is_canon. reflexivity. Qed.

Lemma dos : Qc_of_Z 2 = 1 + 1.
Proof. apply Qc_is_canon. reflexivity. Qed.

Lemma interpolar_0 (lo hi : Qc) :
  lo + (hi - lo) * (Qc_of_Z (Z.of_nat 0) / Qc_of_Z 100) = lo.
Proof. rewrite peso_0. ring. Qed.

Lemma interpolar_50 (lo hi : Qc) :
  lo + (hi - lo) * (Qc_of_Z (Z.of_nat 50) / Qc_of_Z 100)
  = (lo + hi) / Qc_of_Z 2.
Proof. rewrite peso_50, dos. field. done. Qed.

(** The median of pandas is the 50th percentile of numpy. *)
Lemma median_percentil s : median s = percentil (dropna s) 50.
Proof.
  unfold median, percentil.
  set (v := ordenar (dropna s)).
  destruct (length v) as [|m] eqn:Hn; [done|].
  destruct (Nat.Even_or_Odd m) as [[k ->]|[k ->]].
  - assert (Nat.odd (S (2 * k)) = true) as ->.
    { apply Nat.odd_spec. exists k. lia. }
    assert (S (2 * k) / 2 = k)%nat as ->.
    { symmetry. apply (Nat.div_unique _ _ _ 1); lia. }
    assert (2 * k * 50 / 100 = k)%nat as ->.
    { symmetry. apply (Nat.div_unique _ _ _ 0); lia. }
    assert ((2 * k * 50) mod 100 = 0)%nat as ->.
    { symmetry. apply (Nat.mod_unique _ _ k); lia. }
    destruct (lookup_lt_is_Some_2 v k) as [lo Hlo]; [lia|].
    destruct (lookup_lt_is_Some_2 v (Nat.min (k + 1) (2 * k))) as [hi Hhi];
      [lia|].
    rewrite Hlo, Hhi. simpl. by rewrite interpolar_0.
  - assert (Nat.odd (S (2 * k + 1)) = false) as ->.
    { rewrite <-Nat.negb_even. apply negb_false_iff, Nat.even_spec.
      exists (k + 1)%nat. lia. }
    assert (S (2 * k + 1) / 2 = k + 1)%nat as ->.
    { symmetry. apply (Nat.div_unique _ _ _ 0); lia. }
    assert ((2 * k + 1) * 50 / 100 = k)%nat as ->.
    { symmetry. apply (Nat.div_unique _ _ _ 50); lia. }
    assert (((2 * k + 1) * 50) mod 100 = 50)%nat as ->.
    { symmetry. apply (Nat.mod_unique _ _ k); lia. }
    replace (k + 1 - 1)%nat with k by lia.
    replace (Nat.min (k + 1) (2 * k + 1)) with (k + 1)%nat by lia.
    destruct (lookup_lt_is_Some_2 v k) as [lo Hlo]; [lia|].
    destruct (lookup_lt_is_Some_2 v (k + 1)) as [hi Hhi]; [lia|].
    rewrite Hlo, Hhi. simpl. by rewrite interpolar_50.
Qed.

(** A percentile of a non-empty array is a number. *)
Lemma percentil_is_Some a p :
  a ≠ [] → (p ≤ 100)%nat → is_Some (percentil a p).
Proof.
  intros Ha Hp. unfold percentil.
  pose proof (ordenar_length a) as Hlen.
  destruct (length (ordenar a)) as [|m] eqn:Hn.
  { destruct a; [done|simpl in Hlen; lia]. }
  assert (m * p / 100 ≤ m)%nat as Hi.
  { apply Nat.Div0.div_le_upper_bound. nia. }
  destruct (lookup_lt_is_Some_2 (ordenar a) (m * p / 100)) as [lo Hlo]; [lia|].
  destruct (lookup_lt_is_Some_2 (ordenar a)
              (Nat.min (m * p / 100 + 1) m)) as [hi Hhi]; [lia|].
  rewrite Hlo, Hhi. by eexists.
Qed.

Lemma percentil_nil p : percentil [] p = None.
Proof. done. Qed.

Lemma median_is_Some s : dropna s ≠ [] → is_Some (median s).
Proof. intros. rewrite median_percentil. apply percentil_is_Some; [done|lia]. Qed.

Lemma median_nil s : dropna s = [] → median s = None.
Proof. intros H. by rewrite median_percentil, H. Qed.

(** *** The mode *)

Lemma contar_pos x a : x ∈ a → (0 < contar x a)%nat.
Proof.
  intros Hx. unfold contar.
  assert (x ∈ filter (λ y, y = x) a) as Hin by (by apply list_elem_of_filter).
  destruct (filter (λ y, y = x) a); [by apply elem_of_nil in Hin|simpl; lia].
Qed.

Lemma remove_dups_sorted (l : list Qc) :
  StronglySorted Qcle l → StronglySorted Qcle (remove_dups l).
Proof.
  induction 1 as [|x l Hl IH Hx]; simpl; [constructor|].
  case_decide; [done|]. constructor; [done|].
  apply list.Forall_forall. intros y Hy. rewrite elem_of_remove_dups in Hy.
  rewrite list.Forall_forall in Hx. by apply Hx.
Qed.

Lemma unique_sorted a : StronglySorted Qcle (unique a).
Proof. apply remove_dups_sorted, ordenar_sorted. Qed.

Lemma elem_of_unique a x : x ∈ unique a ↔ x ∈ a.
Proof. unfold unique. by rewrite elem_of_remove_dups, elem_of_ordenar. Qed.

(** The loop of [mode] over ascending scores: it ends on a count no score
    of the list exceeds, and it either keeps what it started with or holds
    the smallest score that reaches that count. *)
Lemma mode_bucle a l m c :
  StronglySorted Qcle l →
  let r := foldl (mode_paso a) (m, c) l in
  (c ≤ r.2)%nat ∧
  (∀ x, x ∈ l → (contar x a ≤ r.2)%nat) ∧
  (r = (m, c) ∨
   (r.1 ∈ l ∧ contar r.1 a = r.2 ∧ (c < r.2)%nat ∧
    ∀ x, x ∈ l → contar x a = r.2 → r.1 ≤ x)).
Proof.
  intros Hl. revert m c.
  induction Hl as [|s l Hl IH Hs]; intros m c; simpl.
  { split; [done|]. split; [|by left]. by intros x ?%elem_of_nil. }
  assert (mode_paso a (m, c) s
          = if (c <? contar s a)%nat then (s, contar s a) else (m, c)) as ->
    by done.
  destruct (Nat.ltb_spec c (contar s a)) as [Hlt|Hge].
  - destruct (IH s (contar s a)) as (Hle & Hmax & Hr).
    split; [lia|]. split.
    { intros x [->|Hx]%elem_of_cons; [done|by apply Hmax]. }
    right. destruct Hr as [->|(Hin & Hc & Hlt' & Hmin)]; simpl.
    + split; [left|]. split; [done|]. split; [done|].
      intros x [->|Hx]%elem_of_cons _; [done|].
      rewrite list.Forall_forall in Hs. by apply Hs.
    + split; [by right|]. split; [done|]. split; [lia|].
      intros x [->|Hx]%elem_of_cons Hcx; [lia|by apply Hmin].
  - destruct (IH m c) as (Hle & Hmax & Hr).
    split; [done|]. split.
    { intros x [->|Hx]%elem_of_cons; [lia|by apply Hmax]. }
    destruct Hr as [->|(Hin & Hc & Hlt' & Hmin)]; [by left|right].
    split; [by right|]. split; [done|]. split; [done|].
    intros x [->|Hx]%elem_of_cons Hcx; [lia|by apply Hmin].
Qed.

(** [scipy.stats.mode] returns one mode for a non-empty array, and it is
    the mode of the specification. *)
Lemma mode_es_moda a :
  a ≠ [] → ∃ m, (mode a).1 = [m] ∧ es_moda m a.
Proof.
  intros Ha. unfold mode.
  destruct a as [|a0 a']; [done|]. set (a := a0 :: a') in *.
  destruct (mode_bucle a (unique a) (Qc_of_Z 0) 0 (unique_sorted a))
    as (_ & Hmax & Hr).
  eexists. split; [done|].
  assert (a0 ∈ a) as Ha0 by left.
  destruct Hr as [Heq|(Hin & Hc & _ & Hmin)].
  { pose proof (Hmax a0 (proj2 (elem_of_unique a a0) Ha0)) as H0.
    rewrite Heq in H0. simpl in H0. pose proof (contar_pos _ _ Ha0). lia. }
  split; [by apply elem_of_unique|].
  intros x Hx%elem_of_unique. pose proof (Hmax x Hx) as Hle.
  rewrite Hc.
  destruct (decide (contar x a = (foldl (mode_paso a) (Qc_of_Z 0, 0%nat) (unique a)).2))
    as [Heq|Hne]; [right|left; lia].
  split; [done|]. by apply Hmin.
Qed.

Lemma mode_nil : mode [] = ([], []).
Proof. done. Qed.

End StatsFacts.

(** ** Results, the store *)

Lemma recorrer_Ok {A B} (f : A → resultado B) (g : A → B) l :
  (∀ x, x ∈ l → f x = Ok (g x)) → recorrer f l = Ok (g <$> l).
Proof.
  induction l as [|x l IH]; intros Hf; simpl; [done|].
  rewrite Hf by left. simpl. rewrite IH; [done|].
  intros y Hy. apply Hf. by right.
Qed.

Lemma recorrer_cons {A B} (f : A → resultado B) x l :
  recorrer f (x :: l) = y ← f x; ys ← recorrer f l; Ok (y :: ys).
Proof. done. Qed.

Lemma recorrer_length {A B} (f : A → resultado B) l r :
  recorrer f l = Ok r → length r = length l.
Proof.
  revert r. induction l as [|x l IH]; intros r; simpl.
  { by intros [= <-]. }
  destruct (f x); simpl; [|done].
  destruct (recorrer f l) as [ys|]; simpl; [|done].
  intros [= <-]. simpl. f_equal. by apply IH.
Qed.

Lemma obtener_cons {K V} `{EqDecision K} (c c' : K) (s : V) l :
  obtener c ((c', s) :: l) = if decide (c' = c) then Some s else obtener c l.
Proof. done. Qed.

Lemma obtener_tabla {K V} `{EqDecision K} (g : K → V) (l : list K) k :
  obtener k ((λ x, (x, g x)) <$> l)
  = if decide (k ∈ l) then Some (g k) else None.
Proof.
  induction l as [|x l IH].
  { destruct (decide (k ∈ [])) as [H|H]; [by apply elem_of_nil in H|done]. }
  rewrite fmap_cons, obtener_cons.
  destruct (decide (x = k)) as [->|Hne].
  - rewrite decide_True; [done|left].
  - rewrite IH. destruct (decide (k ∈ l)) as [Hin|Hin].
    + by rewrite decide_True by (by right).
    + rewrite decide_False; [done|].
      rewrite elem_of_cons. intros [->|?]; done.
Qed.

Lemma obtener_poner_eq c s l : obtener c (poner c s l) = Some s.
Proof.
  induction l as [|[c' s'] l IH]; simpl.
  { by rewrite decide_True. }
  destruct (decide (c' = c)) as [->|Hne]; simpl.
  - by rewrite decide_True.
  - by rewrite decide_False.
Qed.

Lemma obtener_poner_ne c c' s l :
  c ≠ c' → obtener c' (poner c s l) = obtener c' (l : list (string * Series)).
Proof.
  intros Hne. induction l as [|[c0 s0] l IH]; simpl.
  { by rewrite decide_False. }
  destruct (decide (c0 = c)) as [->|Hne0]; simpl.
  - by rewrite !decide_False.
  - destruct (decide (c0 = c')); [done|apply IH].
Qed.

Lemma poner_columns c s l :
  is_Some (obtener c l) → (poner c s l).*1 = l.*1.
Proof.
  induction l as [|[c0 s0] l IH]; simpl.
  { by intros [? ?]. }
  destruct (decide (c0 = c)) as [->|Hne]; simpl; [done|].
  intros H. f_equal. by apply IH.
Qed.

Lemma poner_mismo c s l : obtener c l = Some s → poner c s l = l.
Proof.
  induction l as [|[c0 s0] l IH]; simpl; [done|].
  destruct (decide (c0 = c)) as [->|Hne]; simpl.
  - by intros [= ->].
  - intros H. by rewrite IH.
Qed.

Lemma elem_of_columns c (l : list (string * Series)) :
  c ∈ l.*1 ↔ is_Some (obtener c l).
Proof.
  induction l as [|[c0 s0] l IH]; simpl.
  { split; [by intros ?%elem_of_nil|by intros [? ?]]. }
  rewrite elem_of_cons. destruct (decide (c0 = c)) as [->|Hne].
  - split; [by eexists|by left].
  - rewrite <-IH. split; [by intros [->|?]|by right].
Qed.

Lemma getitem_Ok d c s : getitem d c = Ok s → obtener c (datos d) = Some s.
Proof.
  unfold getitem. destruct (obtener c (datos d)); [|done]. by intros [= ->].
Qed.

Lemma bien_formado_length d c s :
  bien_formado d = true → obtener c (datos d) = Some s →
  length (celdas s) = length (index d).
Proof.
  unfold bien_formado. generalize (length (index d)) as n.
  intros n. induction (datos d) as [|[c0 s0] l IH]; simpl; [done|].
  intros [H0 Hl]%andb_true_iff.
  destruct (decide (c0 = c)) as [->|Hne].
  - intros [= ->]. by apply Nat.eqb_eq.
  - by apply IH.
Qed.

(** ** [groupby] and [transform] *)

Lemma grupo_cons k k0 v0 claves vals :
  grupo k (k0 :: claves) (v0 :: vals)
  = if decide (k0 = k) then v0 :: grupo k claves vals else grupo k claves vals.
Proof.
  unfold grupo. simpl. rewrite filter_cons. simpl.
  by destruct (decide (k0 = k)).
Qed.

Lemma posicion_cons k k0 previas :
  posicion k (k0 :: previas)
  = if decide (k0 = k) then S (posicion k previas) else posicion k previas.
Proof.
  unfold posicion. rewrite filter_cons. by destruct (decide (k0 = k)).
Qed.

(** The row [i] sits in its group at the place [posicion] counts. *)
Lemma grupo_posicion k claves vals i :
  claves !! i = Some k →
  grupo k claves vals !! posicion k (take i claves) = vals !! i.
Proof.
  revert vals i. induction claves as [|k0 claves IH]; intros vals i Hi.
  { by rewrite lookup_nil in Hi. }
  destruct vals as [|v0 vals].
  { unfold grupo. by rewrite zip_with_nil_r, !lookup_nil. }
  rewrite grupo_cons. destruct i as [|i]; simpl in *.
  - injection Hi as ->. by rewrite decide_True.
  - rewrite posicion_cons. destruct (decide (k0 = k)); simpl; by apply IH.
Qed.

Lemma grupo_con_valor k claves vals i x :
  claves !! i = Some k → vals !! i = Some (Some x) →
  Stats.dropna (grupo k claves vals) ≠ [].
Proof.
  intros Hk Hv Hgr.
  pose proof (grupo_posicion k claves vals i Hk) as Hp. rewrite Hv in Hp.
  apply list_elem_of_lookup_2 in Hp.
  assert (x ∈ Stats.dropna (grupo k claves vals)) as Hin.
  { unfold Stats.dropna. apply list_elem_of_omap. by exists (Some x). }
  rewrite Hgr in Hin. by apply elem_of_nil in Hin.
Qed.

Lemma elem_of_nombres k claves :
  k ∈ nombres claves ↔ (None ∉ k) ∧ k ∈ claves.
Proof. unfold nombres. by rewrite elem_of_remove_dups, list_elem_of_filter. Qed.

Lemma groupby_length d agrupacion claves :
  groupby d agrupacion = Ok claves → length claves = length (index d).
Proof.
  unfold groupby. destruct agrupacion; [done|].
  destruct (recorrer _ _); simpl; [|done].
  intros [= <-]. unfold claves_de. by rewrite length_fmap, length_seq.
Qed.

Lemma length_celdas_SNum v : length (celdas (SNum v)) = length v.
Proof. simpl. by rewrite length_fmap. Qed.

(** ** [imputar_fecha] *)

(** The interquartile range of a group without a value: numpy returns one
    NaN for the two percentiles, and unpacking it raises. *)
Lemma calcular_iqr_vacio g :
  Stats.dropna g = [] → calcular_iqr g = Raise TypeError.
Proof. intros Hg. unfold calcular_iqr. by rewrite Hg. Qed.

Lemma calcular_iqr_Ok g :
  Stats.dropna g ≠ [] →
  calcular_iqr g
  = Ok (Stats.resta (Stats.percentil (Stats.dropna g) 75)
                    (Stats.percentil (Stats.dropna g) 25)).
Proof.
  intros Hg. unfold calcular_iqr, Stats.nanpercentile.
  by destruct (Stats.dropna g).
Qed.

(** [imputar_fecha] on a group without a value: the exception of
    [calcular_iqr] is not the one the body catches. *)
Lemma imputar_fecha_vacio u g :
  Stats.dropna g = [] → imputar_fecha u g = Raise TypeError.
Proof. intros Hg. unfold imputar_fecha. by rewrite calcular_iqr_vacio. Qed.

(** [imputar_fecha] on a group with a value returns the group filled. *)
Lemma imputar_fecha_relleno u g :
  Stats.dropna g ≠ [] →
  imputar_fecha u g = Ok (Stats.fillna (relleno u g) g).
Proof.
  intros Hg. unfold imputar_fecha, relleno, indexar.
  rewrite calcular_iqr_Ok by done. simpl.
  destruct (Stats.mayor _ _); [done|].
  by destruct ((Stats.mode (Stats.dropna g)).1 !! 0%nat).
Qed.

Lemma cada_grupo_con_valor_spec claves vals :
  cada_grupo_con_valor claves vals = true
  ↔ ∀ k, k ∈ nombres claves → Stats.dropna (grupo k claves vals) ≠ [].
Proof.
  unfold cada_grupo_con_valor. rewrite forallb_forall. split.
  - intros H k Hk. apply list_elem_of_In, H in Hk.
    apply negb_true_iff in Hk. by apply bool_decide_eq_false in Hk.
  - intros H k Hk. apply list_elem_of_In, H in Hk.
    apply negb_true_iff. by apply bool_decide_eq_false.
Qed.

Lemma recorrer_Raise {A B} (f : A → resultado B) e l :
  (∀ x, x ∈ l → f x = Raise e ∨ ∃ y, f x = Ok y) →
  (∃ x, x ∈ l ∧ f x = Raise e) →
  recorrer f l = Raise e.
Proof.
  induction l as [|x l IH]; intros Hall (x0 & Hin & Hx0).
  { by apply elem_of_nil in Hin. }
  rewrite recorrer_cons.
  destruct (Hall x) as [Hx|[y Hy]]; [left|by rewrite Hx|].
  rewrite Hy. simpl. rewrite IH; [done| |].
  - intros z Hz. apply Hall. by right.
  - apply elem_of_cons in Hin as [->|Hin]; [congruence|by exists x0].
Qed.

Lemma transform_imputar u claves vals :
  length claves = length vals →
  cada_grupo_con_valor claves vals = true →
  transform (imputar_fecha u) claves vals = Ok (imputado u claves vals).
Proof.
  intros Hlen Hval. rewrite cada_grupo_con_valor_spec in Hval.
  unfold transform.
  rewrite (recorrer_Ok _
    (λ k, (k, Stats.fillna (relleno u (grupo k claves vals))
                (grupo k claves vals)))).
  2: { intros k Hk. by rewrite imputar_fecha_relleno by by apply Hval. }
  simpl. f_equal. apply list_eq. intros i.
  unfold imputado. rewrite list_lookup_imap, lookup_zip_with.
  destruct (claves !! i) as [k|] eqn:Hk; simpl; [|done].
  destruct (lookup_lt_is_Some_2 vals i) as [v Hv].
  { rewrite <-Hlen. by eapply lookup_lt_Some. }
  rewrite Hv. simpl. f_equal.
  rewrite (obtener_tabla (λ k, Stats.fillna (relleno u (grupo k claves vals))
                                 (grupo k claves vals))).
  destruct (decide (None ∈ k)) as [Hnul|Hnul].
  - rewrite decide_False; [done|]. rewrite elem_of_nombres. tauto.
  - rewrite decide_True.
    2: { apply elem_of_nombres. split; [done|]. by eapply list_elem_of_lookup_2. }
    unfold Stats.fillna. rewrite list_lookup_fmap, grupo_posicion by done.
    rewrite Hv. simpl. by destruct v.
Qed.

(** One group without a value is enough for [transform] to raise. *)
Lemma transform_vacio u claves vals :
  cada_grupo_con_valor claves vals = false →
  transform (imputar_fecha u) claves vals = Raise TypeError.
Proof.
  intros Hval. unfold transform.
  rewrite (recorrer_Raise _ TypeError); [done| |].
  - intros k _. destruct (decide (Stats.dropna (grupo k claves vals) = []))
      as [Hg|Hg].
    + left. by rewrite imputar_fecha_vacio.
    + right. rewrite imputar_fecha_relleno by done. by eexists.
  - unfold cada_grupo_con_valor in Hval.
    apply not_true_iff_false in Hval. rewrite forallb_forall in Hval.
    destruct (decide (Exists (λ k, Stats.dropna (grupo k claves vals) = [])
                        (nombres claves))) as [Hex|Hex].
    + apply list.Exists_exists in Hex as (k & Hk & Hg). exists k.
      split; [done|]. by rewrite imputar_fecha_vacio.
    + destruct Hval. intros k Hk. apply list_elem_of_In in Hk.
      apply negb_true_iff, bool_decide_eq_false. intros Hg.
      apply Hex, list.Exists_exists. by exists k.
Qed.

(** ** [elegir_imputacion]: the call in closed form *)

Lemma claves_vals_length d columna agrupacion claves vals :
  bien_formado d = true →
  groupby d agrupacion = Ok claves →
  getitem d columna = Ok (SNum vals) →
  length claves = length vals.
Proof.
  intros Hwf Hg Hc.
  rewrite (groupby_length _ _ _ Hg). unfold getitem in Hc.
  destruct (obtener columna (datos d)) as [s|] eqn:Hs; [|done].
  injection Hc as ->. rewrite <-(bien_formado_length _ _ _ Hwf Hs).
  by rewrite length_celdas_SNum.
Qed.

Lemma elegir_imputacion_spec h df d columna agrupacion u claves vals :
  h !! df = Some d → bien_formado d = true →
  groupby d agrupacion = Ok claves →
  getitem d columna = Ok (SNum vals) →
  cada_grupo_con_valor claves vals = true →
  elegir_imputacion df columna agrupacion u h
  = (Ok df, <[df := con_columna d columna (SNum (imputado u claves vals))]> h).
Proof.
  intros Hdf Hwf Hg Hc Hval.
  pose proof (claves_vals_length _ _ _ _ _ Hwf Hg Hc) as Hlen.
  unfold elegir_imputacion, mbind, M_bind, leer, lift, setitem, mret, M_ret.
  rewrite Hdf, Hg, Hc. simpl. rewrite transform_imputar by done.
  by rewrite Hdf.
Qed.

(** A group with all its grouping values and no target value makes the
    call raise, and the frame is not touched. *)
Lemma elegir_imputacion_falla h df d columna agrupacion u claves vals :
  h !! df = Some d →
  groupby d agrupacion = Ok claves →
  getitem d columna = Ok (SNum vals) →
  cada_grupo_con_valor claves vals = false →
  elegir_imputacion df columna agrupacion u h = (Raise TypeError, h).
Proof.
  intros Hdf Hg Hc Hval.
  unfold elegir_imputacion, mbind, M_bind, leer, lift, setitem, mret, M_ret.
  rewrite Hdf, Hg, Hc. simpl. by rewrite transform_vacio.
Qed.

Lemma imputado_lookup u claves vals i k v :
  claves !! i = Some k → vals !! i = Some v →
  imputado u claves vals !! i
  = Some (if decide (None ∈ k) then None
          else match v with
               | Some x => Some x
               | None => relleno u (grupo k claves vals)
               end).
Proof.
  intros Hk Hv. unfold imputado. by rewrite lookup_zip_with, Hk, Hv.
Qed.

(** The value the code fills a group with is the one the specification
    names. *)
Lemma relleno_spec u g :
  Stats.dropna g ≠ [] →
  ∃ v, relleno u g = Some v ∧ relleno_segun_spec u (Stats.dropna g) v.
Proof.
  intros Hg. unfold relleno, relleno_segun_spec.
  destruct (StatsFacts.percentil_is_Some (Stats.dropna g) 25 Hg) as [q1 H1];
    [lia|].
  destruct (StatsFacts.percentil_is_Some (Stats.dropna g) 75 Hg) as [q3 H3];
    [lia|].
  rewrite H1, H3. simpl.
  destruct (decide (u < q3 - q1)) as [Hlt|Hge].
  - rewrite bool_decide_eq_true_2 by done.
    destruct (StatsFacts.median_is_Some g Hg) as [v Hv].
    exists v. split; [done|]. exists q1, q3.
    rewrite decide_True by done.
    by rewrite <-StatsFacts.median_percentil.
  - rewrite bool_decide_eq_false_2 by done.
    destruct (StatsFacts.mode_es_moda _ Hg) as (m & Hm & Hmoda).
    rewrite Hm. simpl. exists m. split; [done|]. exists q1, q3.
    by rewrite decide_False by done.
Qed.

Lemma relleno_nulo u g : Stats.dropna g = [] → relleno u g = None.
Proof.
  intros Hg. unfold relleno. rewrite Hg. simpl.
  by apply StatsFacts.median_nil.
Qed.

(** *** What the call leaves alone *)

(** The labels and the names of the columns stay, and so does every
    column but the target. *)
Lemma elegir_imputacion_marco h df d columna agrupacion u claves vals :
  h !! df = Some d → bien_formado d = true →
  groupby d agrupacion = Ok claves →
  getitem d columna = Ok (SNum vals) →
  cada_grupo_con_valor claves vals = true →
  ∃ d', elegir_imputacion df columna agrupacion u h = (Ok df, <[df := d']> h)
    ∧ index d' = index d
    ∧ columns d' = columns d
    ∧ ∀ c, c ≠ columna → obtener c (datos d') = obtener c (datos d).
Proof.
  intros Hdf Hwf Hg Hc Hval. eexists.
  split; [by eapply elegir_imputacion_spec|].
  split; [done|]. split.
  - apply poner_columns. unfold getitem in Hc.
    by destruct (obtener columna (datos d)).
  - intros c Hne. by apply obtener_poner_ne.
Qed.

(** A value of the target stays where the row has all its grouping
    values, and is lost where one of them is null. *)
Lemma elegir_imputacion_valores h df d columna agrupacion u claves vals :
  h !! df = Some d → bien_formado d = true →
  groupby d agrupacion = Ok claves →
  getitem d columna = Ok (SNum vals) →
  cada_grupo_con_valor claves vals = true →
  ∃ res,
    elegir_imputacion df columna agrupacion u h
    = (Ok df, <[df := con_columna d columna (SNum res)]> h)
    ∧ length res = length vals
    ∧ ∀ i k x, claves !! i = Some k → vals !! i = Some (Some x) →
        res !! i = Some (if decide (None ∈ k) then None else Some x).
Proof.
  intros Hdf Hwf Hg Hc Hval. eexists.
  split; [by eapply elegir_imputacion_spec|].
  split.
  - unfold imputado. rewrite length_zip_with.
    pose proof (claves_vals_length _ _ _ _ _ Hwf Hg Hc). lia.
  - intros i k x Hk Hv. by rewrite (imputado_lookup _ _ _ _ _ _ Hk Hv).
Qed.





Lemma bien_formado_con_columna d c s :
  bien_formado d = true → length (celdas s) = length (index d) →
  bien_formado (con_columna d c s) = true.
Proof.
  unfold bien_formado, con_columna. simpl.
  generalize (length (index d)) as n. intros n Hwf Hs.
  induction (datos d) as [|[c0 s0] l IH]; simpl in *.
  - rewrite andb_true_r. by apply Nat.eqb_eq.
  - apply andb_true_iff in Hwf as [H0 Hl].
    destruct (decide (c0 = c)); simpl.
    + rewrite Hl, andb_true_r. by apply Nat.eqb_eq.
    + by rewrite H0, IH.
Qed.

(** *** The column the call writes *)

Lemma imputado_rellena u claves vals :
  imputa_grupos (λ k, None ∉ k) u claves vals (imputado u claves vals).
Proof.
  intros i k Hk Hnn Hv Hgr.
  rewrite (imputado_lookup _ _ _ _ _ _ Hk Hv), decide_False by done.
  destruct (relleno_spec u _ Hgr) as (v & -> & Hspec). by exists v.
Qed.

Lemma imputado_sin_nulos u claves vals :
  length claves = length vals →
  sin_nulos_en_grupos (λ k, None ∉ k) claves vals (imputado u claves vals).
Proof.
  intros Hlen i k Hk.
  destruct (lookup_lt_is_Some_2 vals i) as [v Hv].
  { rewrite <-Hlen. by eapply lookup_lt_Some. }
  rewrite (imputado_lookup _ _ _ _ _ _ Hk Hv). split.
  - intros Hnn Hgr. rewrite decide_False by done.
    destruct v as [x|]; [by exists x|].
    destruct (relleno_spec u _ Hgr) as (x & -> & _). by exists x.
  - intros Hgr. case_decide; [done|]. destruct v as [x|].
    + by destruct (grupo_con_valor _ _ _ _ _ Hk Hv).
    + by rewrite relleno_nulo.
Qed.

Lemma fillna_None g : Stats.fillna None g = g.
Proof.
  unfold Stats.fillna. induction g as [|[x|] g IH]; [done| |];
    rewrite fmap_cons; by f_equal.
Qed.

(** ** [elegir_imputacion]: the specification *)

(** C1, as the code has it: when every group has a non-null target value,
    the call returns, and in every group (the rows that share the same
    values, none of them null, in the grouping columns) each null of the
    target is filled with the median of the group (its 50th percentile)
    when the interquartile range is above the threshold, and with the mode
    (the most frequent value, the smallest among ties) otherwise, also
    when the range equals the threshold. *)
Theorem elegir_imputacion_rellena h df d columna agrupacion u claves vals :
  h !! df = Some d → bien_formado d = true →
  groupby d agrupacion = Ok claves →
  getitem d columna = Ok (SNum vals) →
  cada_grupo_con_valor claves vals = true →
  ∃ res,
    elegir_imputacion df columna agrupacion u h
    = (Ok df, <[df := con_columna d columna (SNum res)]> h)
    ∧ imputa_grupos (λ k, None ∉ k) u claves vals res.
Proof.
  intros Hdf Hwf Hg Hc Hval. eexists.
  split; [by eapply elegir_imputacion_spec|]. apply imputado_rellena.
Qed.

Lemma elegir_imputacion_rellena_witness :
  ∃ res,
    elegir_imputacion 0%nat "x" ["g"] (Qc_of_Z 60) [ej_grupos]
    = (Ok 0%nat, <[0%nat := con_columna ej_grupos "x" (SNum res)]> [ej_grupos])
    ∧ imputa_grupos (λ k, None ∉ k) (Qc_of_Z 60)
        ej_grupos_claves ej_grupos_vals res.
Proof.
  apply (elegir_imputacion_rellena [ej_grupos] 0%nat ej_grupos "x" ["g"]);
    reflexivity.
Defined.

(** The scenario of the specification: the null of [A] = 10, 20, null, 15
    becomes the mode 10 (range 5, every value once, the smallest wins) and
    the null of [B] = 10, null, 900, 5, 1000 becomes the median 455 (range
    916.25). *)
Example elegir_imputacion_ej_grupos :
  ∃ res,
    elegir_imputacion 0%nat "x" ["g"] (Qc_of_Z 60) [ej_grupos]
    = (Ok 0%nat, [con_columna ej_grupos "x" (SNum res)])
    ∧ (λ c : option Qc, this <$> c) <$> res
      = [Some 10; Some 20; Some 10; Some 15;
         Some 10; Some 455; Some 900; Some 5; Some 1000]%Q.
Proof. eexists. split; [reflexivity|]. vm_compute. reflexivity. Qed.

(** The comparison with the threshold is strict.  The group 0, 0, 80,
    80, null has the range 80: at the threshold 80 the null becomes the
    mode 0 (the smaller of two values as frequent), at 79 the median 40. *)
Example imputar_fecha_umbral :
  imputar_fecha (Qc_of_Z 80) [num 0; num 0; num 80; num 80; None]
  = Ok [num 0; num 0; num 80; num 80; num 0]
  ∧ ∃ r,
      imputar_fecha (Qc_of_Z 79) [num 0; num 0; num 80; num 80; None] = Ok r
      ∧ (λ c : option Qc, this <$> c) <$> r
        = [Some 0; Some 0; Some 80; Some 80; Some 40]%Q.
Proof.
  split; [reflexivity|]. eexists. split; [reflexivity|].
  vm_compute. reflexivity.
Qed.

(** C1 as it is written fails twice.  It counts the rows without a
    grouping value as a group of their own, and there the null is not
    filled (the last two rows have the target 5 between them, and the
    null of the last one stays); and where another group has no value at all the call raises,
    so that no null is filled. *)
Lemma elegir_imputacion_rellena_contraejemplo :
  (∃ claves vals res,
     groupby ej_clave_nula ["g"] = Ok claves
     ∧ getitem ej_clave_nula "x" = Ok (SNum vals)
     ∧ elegir_imputacion 0%nat "x" ["g"] (Qc_of_Z 60) [ej_clave_nula]
       = (Ok 0%nat, [con_columna ej_clave_nula "x" (SNum res)])
     ∧ ¬ imputa_grupos (λ _, True) (Qc_of_Z 60) claves vals res)
  ∧ elegir_imputacion 0%nat "x" ["g"] (Qc_of_Z 60) [ej_grupo_nulo]
    = (Raise TypeError, [ej_grupo_nulo]).
Proof.
  split; [|reflexivity].
  eexists _, _, [num 1; None; None].
  split; [reflexivity|]. split; [reflexivity|].
  split; [reflexivity|]. intros H.
  destruct (H 2%nat [None] eq_refl I eq_refl) as (v & Hv & _); [|done].
  by vm_compute.
Qed.

(** C2, as the code has it: after the call has returned, a group (rows
    that share the same values, none of them null, in the grouping
    columns) that had a non-null target value has no null left in the
    target, and rows whose target values were all null are still all
    null. *)
Theorem elegir_imputacion_sin_nulos (h h' : list DataFrame) df d columna
    agrupacion u claves vals r :
  h !! df = Some d → bien_formado d = true →
  groupby d agrupacion = Ok claves →
  getitem d columna = Ok (SNum vals) →
  elegir_imputacion df columna agrupacion u h = (Ok r, h') →
  ∃ res,
    r = df
    ∧ h' = <[df := con_columna d columna (SNum res)]> h
    ∧ sin_nulos_en_grupos (λ k, None ∉ k) claves vals res.
Proof.
  intros Hdf Hwf Hg Hc Hrun.
  destruct (cada_grupo_con_valor claves vals) eqn:Hval.
  2: { by rewrite (elegir_imputacion_falla _ _ _ _ _ _ _ _ Hdf Hg Hc Hval)
         in Hrun. }
  rewrite (elegir_imputacion_spec _ _ _ _ _ _ _ _ Hdf Hwf Hg Hc Hval) in Hrun.
  injection Hrun as <- <-. eexists. split; [done|]. split; [done|].
  by eapply imputado_sin_nulos, claves_vals_length.
Qed.

Lemma elegir_imputacion_sin_nulos_witness :
  ∃ res,
    0%nat = 0%nat
    ∧ [con_columna ej_grupos "x" (SNum (imputado (Qc_of_Z 60)
                                          ej_grupos_claves ej_grupos_vals))]
      = <[0%nat := con_columna ej_grupos "x" (SNum res)]> [ej_grupos]
    ∧ sin_nulos_en_grupos (λ k, None ∉ k)
        ej_grupos_claves ej_grupos_vals res.
Proof.
  apply (elegir_imputacion_sin_nulos [ej_grupos] _ 0%nat ej_grupos "x" ["g"]
           (Qc_of_Z 60)); reflexivity.
Defined.

(** C2 as it is written: the two rows without a grouping value have a
    non-null target between them, and after the call both are null. *)
Lemma elegir_imputacion_sin_nulos_contraejemplo :
  ∃ claves vals res,
    groupby ej_clave_nula ["g"] = Ok claves
    ∧ getitem ej_clave_nula "x" = Ok (SNum vals)
    ∧ elegir_imputacion 0%nat "x" ["g"] (Qc_of_Z 60) [ej_clave_nula]
      = (Ok 0%nat, [con_columna ej_clave_nula "x" (SNum res)])
    ∧ ¬ sin_nulos_en_grupos (λ _, True) claves vals res.
Proof.
  eexists _, _, [num 1; None; None].
  split; [reflexivity|]. split; [reflexivity|].
  split; [reflexivity|]. intros H.
  destruct (H 2%nat [None] eq_refl) as [H1 _].
  destruct H1 as [v Hv]; [done|by vm_compute|done].
Qed.

(** C3 on a frame with a group whose target values are all null: for the
    group [null, null] the interquartile range raises [TypeError], which
    [imputar_fecha] does not catch, and the call raises it to the caller.
    The frame in the store is not changed. *)
Theorem elegir_imputacion_grupo_nulo_falla :
  calcular_iqr [None; None] = Raise TypeError
  ∧ imputar_fecha (Qc_of_Z 60) [None; None] = Raise TypeError
  ∧ elegir_imputacion 0%nat "x" ["g"] (Qc_of_Z 60) [ej_grupo_nulo]
    = (Raise TypeError, [ej_grupo_nulo]).
Proof. repeat split; reflexivity. Qed.

(** C4 at a row without a grouping value: the third row has the target
    5 and a null in the grouping column, and after the call its target is
    null.  The value was not null and it is changed.  (The null of the
    group [a] is filled with 1.) *)
Theorem elegir_imputacion_borra_valor :
  elegir_imputacion 0%nat "x" ["g"] (Qc_of_Z 60) [ej_valor_sin_clave]
  = (Ok 0%nat,
     [mkDF [0; 1; 2]%nat
        [("g", STexto [Some "a"; Some "a"; None]);
         ("x", SNum [num 1; num 1; None])]]).
Proof. reflexivity. Qed.




(** ** Text *)

Lemma isspace_tolower a : isspace (tolower a) = isspace a.
Proof. destruct a as [[] [] [] [] [] [] [] []]; vm_compute; reflexivity. Qed.

Lemma tolower_idem a : tolower (tolower a) = tolower a.
Proof. destruct a as [[] [] [] [] [] [] [] []]; vm_compute; reflexivity. Qed.

Lemma lstrip_fmap_tolower l : lstrip (tolower <$> l) = tolower <$> lstrip l.
Proof.
  induction l as [|a l IH]; [done|].
  rewrite fmap_cons. simpl. rewrite isspace_tolower.
  destruct (isspace a); [done|]. by rewrite fmap_cons.
Qed.

Lemma rstrip_fmap_tolower l : rstrip (tolower <$> l) = tolower <$> rstrip l.
Proof.
  unfold rstrip. by rewrite <-fmap_reverse, lstrip_fmap_tolower, fmap_reverse.
Qed.

Lemma lstrip_idem l : lstrip (lstrip l) = lstrip l.
Proof.
  induction l as [|a l IH]; [done|]. simpl.
  destruct (isspace a) eqn:Ha; [done|]. simpl. by rewrite Ha.
Qed.

Lemma rstrip_idem l : rstrip (rstrip l) = rstrip l.
Proof. unfold rstrip. by rewrite reverse_involutive, lstrip_idem. Qed.

Lemma lstrip_snoc l a : isspace a = false → lstrip (l ++ [a]) = lstrip l ++ [a].
Proof.
  intros Ha. induction l as [|b l IH]; simpl; [by rewrite Ha|].
  by destruct (isspace b).
Qed.

(** Stripping on the right leaves a stripped left end as it is. *)
Lemma lstrip_rstrip_lstrip l : lstrip (rstrip (lstrip l)) = rstrip (lstrip l).
Proof.
  assert (∀ m, lstrip m = m → lstrip (rstrip m) = rstrip m) as H.
  { intros [|a m] Hm; [done|]. simpl in Hm.
    destruct (isspace a) eqn:Ha.
    - exfalso. assert (length (lstrip m) = S (length m)) as Hlen
        by (by rewrite Hm).
      clear -Hlen. assert (length (lstrip m) ≤ length m)%nat; [|lia].
      clear. induction m as [|b m IH]; simpl; [done|].
      destruct (isspace b); simpl; lia.
    - unfold rstrip. rewrite reverse_cons, lstrip_snoc, reverse_snoc by done.
      simpl. by rewrite Ha. }
  apply H, lstrip_idem.
Qed.

(** [lstrip] takes a run of whitespace off the front and stops at the
    first character that is not whitespace. *)
Lemma lstrip_spec l :
  ∃ pre, l = pre ++ lstrip l
         ∧ Forall (λ a, isspace a = true) pre
         ∧ match lstrip l with a :: _ => isspace a = false | [] => True end.
Proof.
  induction l as [|a l (pre & Hl & Hpre & Hhd)]; [by exists []|].
  simpl. destruct (isspace a) eqn:Ha.
  - exists (a :: pre). split; [by rewrite Hl at 1|]. by split; [constructor|].
  - exists []. by repeat split.
Qed.

(** [strip] takes whitespace, and nothing else, off both ends. *)
Lemma strip_spec s :
  ∃ pre post,
    list_ascii_of_string s = pre ++ list_ascii_of_string (strip s) ++ post
    ∧ Forall (λ a, isspace a = true) pre
    ∧ Forall (λ a, isspace a = true) post
    ∧ lstrip (list_ascii_of_string (strip s)) = list_ascii_of_string (strip s)
    ∧ rstrip (list_ascii_of_string (strip s)) = list_ascii_of_string (strip s).
Proof.
  unfold strip. rewrite list_ascii_of_string_of_list_ascii.
  set (l := list_ascii_of_string s).
  destruct (lstrip_spec l) as (pre & Hl & Hpre & _).
  destruct (lstrip_spec (reverse (lstrip l))) as (post & Hr & Hpost & _).
  exists pre, (reverse post). split; [|split; [done|split; [|split]]].
  - rewrite Hl at 1. f_equal. unfold rstrip.
    rewrite <-reverse_app, <-Hr. by rewrite reverse_involutive.
  - by apply Forall_reverse.
  - apply lstrip_rstrip_lstrip.
  - apply rstrip_idem.
Qed.

Example strip_ej : strip "  The Matrix  " = "The Matrix" ∧ strip "   " = "".
Proof. split; reflexivity. Qed.

Example lower_ej : lower "The Matrix 2" = "the matrix 2".
Proof. reflexivity. Qed.

Lemma strip_idem s : strip (strip s) = strip s.
Proof.
  unfold strip. rewrite list_ascii_of_string_of_list_ascii.
  by rewrite lstrip_rstrip_lstrip, rstrip_idem.
Qed.

Lemma strip_lower s : strip (lower s) = lower (strip s).
Proof.
  unfold strip, lower. rewrite !list_ascii_of_string_of_list_ascii.
  by rewrite lstrip_fmap_tolower, rstrip_fmap_tolower.
Qed.

Lemma lower_idem s : lower (lower s) = lower s.
Proof.
  unfold lower. rewrite list_ascii_of_string_of_list_ascii.
  rewrite <-list_fmap_compose. f_equal. apply list_fmap_ext.
  intros _ a _. apply tolower_idem.
Qed.

Lemma limpia_serie_idem conservar c s :
  limpia_serie conservar c (limpia_serie conservar c s)
  = limpia_serie conservar c s.
Proof.
  destruct s as [v|v|v]; [done| |done]. simpl. f_equal.
  rewrite <-list_fmap_compose. apply list_fmap_ext.
  intros _ [t|] _; [|done]. simpl. f_equal.
  destruct (decide (c ∈ conservar)); [apply strip_idem|].
  by rewrite strip_lower, strip_idem, lower_idem.
Qed.

(** ** Loops over the columns of a frame *)

Lemma para_almacen {A} (I : DataFrame → Prop) (paso : A → DataFrame → DataFrame)
    (cuerpo : A → M unit) (df : ref) (l : list A) :
  (∀ x (h : almacen) d, x ∈ l → I d → h !! df = Some d →
     cuerpo x h = (Ok (), <[df := paso x d]> h) ∧ I (paso x d)) →
  ∀ (h : almacen) d, I d → h !! df = Some d →
    para l cuerpo h = (Ok (), <[df := foldl (λ d x, paso x d) d l]> h).
Proof.
  induction l as [|x l IH]; intros Hc h d HI Hdf; simpl.
  { unfold mret, M_ret. by rewrite list_insert_id. }
  destruct (Hc x h d) as [Hx HI']; [left|done|done|].
  unfold mbind, M_bind. rewrite Hx.
  rewrite (IH (λ y h' d' Hy, Hc y h' d' (list_elem_of_further _ _ _ Hy))
              _ (paso x d) HI').
  - by rewrite list_insert_insert_eq.
  - apply list_lookup_insert_eq. by eapply lookup_lt_Some.
Qed.

Lemma aplicar_index f c d : index (aplicar f c d) = index d.
Proof. unfold aplicar. by destruct (obtener c (datos d)). Qed.

Lemma aplicar_columns f c d : columns (aplicar f c d) = columns d.
Proof.
  unfold aplicar. destruct (obtener c (datos d)) eqn:Hc; [|done].
  apply poner_columns. by rewrite Hc.
Qed.

Lemma obtener_aplicar f c c' d :
  obtener c' (datos (aplicar f c d))
  = if decide (c' = c) then f c <$> obtener c' (datos d)
    else obtener c' (datos d).
Proof.
  unfold aplicar. destruct (decide (c' = c)) as [->|Hne].
  - destruct (obtener c (datos d)) eqn:Hc; simpl; [|by rewrite Hc].
    by rewrite obtener_poner_eq.
  - destruct (obtener c (datos d)); [|done]. simpl.
    by apply obtener_poner_ne.
Qed.

Lemma foldl_aplicar_index f l d :
  index (foldl (λ d c, aplicar f c d) d l) = index d.
Proof.
  revert d. induction l as [|c l IH]; intros d; simpl; [done|].
  by rewrite IH, aplicar_index.
Qed.

Lemma foldl_aplicar_columns f l d :
  columns (foldl (λ d c, aplicar f c d) d l) = columns d.
Proof.
  revert d. induction l as [|c l IH]; intros d; simpl; [done|].
  by rewrite IH, aplicar_columns.
Qed.

(** A column named once or several times in the list is rewritten as if it
    were named once, when rewriting twice is rewriting once. *)
Lemma obtener_foldl_aplicar f l c' d :
  (∀ s, f c' (f c' s) = f c' s) →
  obtener c' (datos (foldl (λ d c, aplicar f c d) d l))
  = if decide (c' ∈ l) then f c' <$> obtener c' (datos d)
    else obtener c' (datos d).
Proof.
  intros Hf. revert d. induction l as [|c l IH]; intros d.
  { destruct (decide (c' ∈ [])) as [H|H]; [by apply elem_of_nil in H|done]. }
  cbn [foldl]. rewrite IH, obtener_aplicar.
  destruct (decide (c' = c)) as [->|Hne].
  - rewrite (decide_True (P := c ∈ c :: l)) by left.
    destruct (decide (c ∈ l)); [|done].
    destruct (obtener c (datos d)); simpl; [|done]. by rewrite Hf.
  - destruct (decide (c' ∈ l)) as [Hin|Hin].
    + by rewrite decide_True by (by right).
    + rewrite decide_False; [done|]. rewrite elem_of_cons. tauto.
Qed.

Lemma poner_poner c s1 s2 (l : list (string * Series)) :
  poner c s2 (poner c s1 l) = poner c s2 l.
Proof.
  induction l as [|[c0 s0] l IH]; simpl.
  { by rewrite decide_True. }
  destruct (decide (c0 = c)) as [->|Hne]; simpl.
  - by rewrite decide_True.
  - rewrite decide_False by done. by rewrite IH.
Qed.

Lemma con_columna_mismo d c s :
  obtener c (datos d) = Some s → con_columna d c s = d.
Proof.
  intros Hs. unfold con_columna. rewrite poner_mismo by done. by destruct d.
Qed.

(** The steps of a computation in the store. *)
Lemma bind_Ok {A B} (m : M A) (f : A → M B) (h h' : almacen) a :
  m h = (Ok a, h') → (m ≫= f) h = f a h'.
Proof. intros H. unfold mbind, M_bind. by rewrite H. Qed.

Lemma bind_Raise {A B} (m : M A) (f : A → M B) (h h' : almacen) e :
  m h = (Raise e, h') → (m ≫= f) h = (Raise e, h').
Proof. intros H. unfold mbind, M_bind. by rewrite H. Qed.

Lemma leer_Ok (h : almacen) df d : h !! df = Some d → leer df h = (Ok d, h).
Proof. intros H. unfold leer. by rewrite H. Qed.

Lemma leer_columna_Ok (h : almacen) df d c s :
  h !! df = Some d → obtener c (datos d) = Some s →
  leer_columna df c h = (Ok s, h).
Proof.
  intros Hdf Hs. unfold leer_columna.
  rewrite (bind_Ok _ _ _ _ _ (leer_Ok _ _ _ Hdf)).
  unfold lift, getitem. by rewrite Hs.
Qed.

Lemma setitem_Ok (h : almacen) df d c s :
  h !! df = Some d →
  setitem df c s h = (Ok (), <[df := con_columna d c s]> h).
Proof. intros H. unfold setitem. by rewrite H. Qed.

Lemma nuevo_Ok (h : almacen) d : nuevo d h = (Ok (length h), h ++ [d]).
Proof. done. Qed.

Ltac resolver :=
  first [ by eapply leer_Ok
        | by eapply leer_columna_Ok
        | by eapply setitem_Ok
        | reflexivity
        | erewrite bind_Ok; [|resolver]; resolver ].

Ltac paso := erewrite bind_Ok; [|resolver].

(** ** [limpiar_texto] *)

(** One turn of the loop, in closed form: it never raises. *)
Lemma limpiar_columna_spec (h : almacen) df d conservar c :
  h !! df = Some d →
  limpiar_columna df conservar c h
  = (Ok (), <[df := aplicar (limpia_serie conservar) c d]> h).
Proof.
  intros Hdf. unfold limpiar_columna, aplicar. paso.
  destruct (obtener c (datos d)) as [s|] eqn:Hs.
  - rewrite (bool_decide_eq_true_2 (c ∈ columns d)).
    2: { apply elem_of_columns. by rewrite Hs. }
    paso.
    assert (df < length h)%nat as Hlt by (by eapply lookup_lt_Some).
    destruct s as [v|v|v]; simpl.
    + by rewrite con_columna_mismo, list_insert_id.
    + do 3 paso.
      pose proof (list_lookup_insert_eq h df
        (con_columna d c (STexto (option_map strip <$> v))) Hlt) as Hdf'.
      destruct (decide (c ∈ conservar)) as [Hin|Hin].
      * by rewrite bool_decide_eq_false_2 by tauto.
      * rewrite bool_decide_eq_true_2 by done.
        rewrite (bind_Ok _ _ _ _ _
                   (leer_columna_Ok _ _ _ _ _ Hdf' (obtener_poner_eq _ _ _))).
        paso. erewrite setitem_Ok by done.
        rewrite list_insert_insert_eq. unfold con_columna. simpl.
        rewrite poner_poner, <-list_fmap_compose. do 5 f_equal.
        apply list_fmap_ext. by intros _ [t|] _.
    + by rewrite con_columna_mismo, list_insert_id.
  - rewrite (bool_decide_eq_false_2 (c ∈ columns d)).
    2: { unfold columns. rewrite elem_of_columns, Hs. by intros [? ?]. }
    paso. by rewrite list_insert_id.
Qed.

Lemma limpiar_texto_spec (h : almacen) df d columnas conservar :
  h !! df = Some d →
  limpiar_texto df columnas conservar h
  = (Ok df,
     <[df := foldl (λ d c, aplicar (limpia_serie conservar) c d) d columnas]> h).
Proof.
  intros Hdf. unfold limpiar_texto. unfold mbind at 1, M_bind at 1.
  rewrite (para_almacen (λ _, True)
             (λ c d, aplicar (limpia_serie conservar) c d) _ df columnas
             (λ c h' d' _ _ Hd, conj (limpiar_columna_spec h' df d' conservar c Hd) I)
             h d I Hdf).
  done.
Qed.



(** C10: a listed column that the frame does not have, or that does not
    hold text, is skipped: the turn of the loop for it returns without an
    exception and leaves the store as it is.  The whole call returns, and
    such a column is afterwards what it was. *)
Theorem limpiar_texto_omite (h : almacen) df d columnas conservar_mayusculas :
  h !! df = Some d →
  (∀ c, c ∉ columns d ∨ (∃ s, obtener c (datos d) = Some s ∧ dtype s ≠ Object) →
     limpiar_columna df conservar_mayusculas c h = (Ok (), h))
  ∧ ∃ d',
      limpiar_texto df columnas conservar_mayusculas h
      = (Ok df, <[df := d']> h)
      ∧ ∀ c, c ∈ columnas →
          c ∉ columns d ∨ (∃ s, obtener c (datos d) = Some s ∧ dtype s ≠ Object) →
          obtener c (datos d') = obtener c (datos d).
Proof.
  intros Hdf. split.
  - intros c Hc. rewrite (limpiar_columna_spec _ _ _ _ _ Hdf).
    assert (aplicar (limpia_serie conservar_mayusculas) c d = d) as ->;
      [|by rewrite list_insert_id].
    unfold aplicar. destruct Hc as [Hc|(s & Hs & Ht)].
    + destruct (obtener c (datos d)) eqn:Hs; [|done].
      destruct Hc. apply elem_of_columns. by rewrite Hs.
    + rewrite Hs. apply con_columna_mismo. rewrite Hs. by destruct s.
  - eexists. split; [by apply limpiar_texto_spec|].
    intros c Hin Hc.
    rewrite obtener_foldl_aplicar by apply limpia_serie_idem.
    rewrite decide_True by done. destruct Hc as [Hc|(s & Hs & Ht)].
    + destruct (obtener c (datos d)) eqn:Hs; [|done].
      destruct Hc. apply elem_of_columns. by rewrite Hs.
    + rewrite Hs. by destruct s.
Qed.

Lemma limpiar_texto_omite_witness :
  (∀ c, c ∉ columns ej_texto
        ∨ (∃ s, obtener c (datos ej_texto) = Some s ∧ dtype s ≠ Object) →
     limpiar_columna 0%nat [] c [ej_texto] = (Ok (), [ej_texto]))
  ∧ ∃ d',
      limpiar_texto 0%nat ["anio"; "nota"] [] [ej_texto]
      = (Ok 0%nat, <[0%nat := d']> [ej_texto])
      ∧ ∀ c, c ∈ ["anio"; "nota"] →
          c ∉ columns ej_texto
          ∨ (∃ s, obtener c (datos ej_texto) = Some s ∧ dtype s ≠ Object) →
          obtener c (datos d') = obtener c (datos ej_texto).
Proof. apply (limpiar_texto_omite [ej_texto] 0%nat ej_texto). reflexivity. Defined.

(** ** [convertir_a_fecha] *)

Section FechasFacts.

Variable parse_texto : list (option string) → string → option Z.
Variable parse_numero : Qc → option Z.

Lemma convertir_coerce {A} (parse : A → option Z) c :
  convertir ErrCoerce parse c = Ok (c ≫= parse).
Proof. destruct c as [x|]; [|done]. simpl. by destruct (parse x). Qed.

(** With [errors='coerce'] the conversion of a column never raises. *)
Lemma to_datetime_coerce s :
  to_datetime parse_texto parse_numero ErrCoerce s
  = Ok (a_fecha parse_texto parse_numero s).
Proof.
  destruct s as [v|v|v]; simpl; [| |done];
    by rewrite (recorrer_Ok _ _ _ (λ c _, convertir_coerce _ c)).
Qed.

Lemma a_fecha_idem s :
  a_fecha parse_texto parse_numero (a_fecha parse_texto parse_numero s)
  = a_fecha parse_texto parse_numero s.
Proof. by destruct s. Qed.

Lemma convertir_columna_spec (h : almacen) df d c :
  h !! df = Some d → c ∈ columns d →
  convertir_columna parse_texto parse_numero df c h
  = (Ok (), <[df := aplicar (λ _, a_fecha parse_texto parse_numero) c d]> h).
Proof.
  intros Hdf [s Hs]%elem_of_columns.
  unfold convertir_columna, aplicar. rewrite Hs. paso.
  rewrite (bind_Ok _ _ h h (a_fecha parse_texto parse_numero s)).
  2: { unfold lift. by rewrite to_datetime_coerce. }
  by apply setitem_Ok.
Qed.

Lemma convertir_a_fecha_spec (h : almacen) df d columnas :
  h !! df = Some d → Forall (λ c, c ∈ columns d) columnas →
  convertir_a_fecha parse_texto parse_numero df columnas h
  = (Ok df,
     <[df := foldl (λ d c, aplicar (λ _, a_fecha parse_texto parse_numero) c d)
               d columnas]> h).
Proof.
  intros Hdf Hcols. unfold convertir_a_fecha.
  unfold mbind at 1, M_bind at 1.
  rewrite (para_almacen (λ d', columns d' = columns d)
             (λ c d, aplicar (λ _, a_fecha parse_texto parse_numero) c d)
             (convertir_columna parse_texto parse_numero df) df columnas)
    with (d := d); [done| |done|done].
  intros c h' d' Hc HI Hd'. split.
  - apply convertir_columna_spec; [done|]. rewrite HI.
    rewrite list.Forall_forall in Hcols. by apply Hcols.
  - by rewrite aplicar_columns.
Qed.

End FechasFacts.

(** C9: when the frame has the listed columns [convertir_a_fecha]
    returns, whatever the values are, and every listed column is a date
    column afterwards.  A string the parser does not read as a date, and a
    number it gives no instant to, is null there; a null stays null. *)
Theorem convertir_a_fecha_nulos parse_texto parse_numero (h : almacen) df d
    columnas :
  h !! df = Some d → Forall (λ c, c ∈ columns d) columnas →
  ∃ d',
    convertir_a_fecha parse_texto parse_numero df columnas h
    = (Ok df, <[df := d']> h)
    ∧ ∀ c s, c ∈ columnas → obtener c (datos d) = Some s →
        ∃ v', obtener c (datos d') = Some (SFecha v')
          ∧ match s with
            | STexto v => v' = (λ x, x ≫= parse_texto v) <$> v
            | SNum v => v' = (λ x, x ≫= parse_numero) <$> v
            | SFecha v => v' = v
            end.
Proof.
  intros Hdf Hcols. eexists. split; [by apply convertir_a_fecha_spec|].
  intros c s Hc Hs.
  rewrite obtener_foldl_aplicar by apply a_fecha_idem.
  rewrite decide_True, Hs by done. simpl.
  destruct s as [v|v|v]; simpl; by eexists.
Qed.

Lemma convertir_a_fecha_nulos_witness :
  ∃ d',
    convertir_a_fecha parse_ej (λ _, None) 0%nat ["alta"; "anio"] [ej_fechas]
    = (Ok 0%nat, <[0%nat := d']> [ej_fechas])
    ∧ ∀ c s, c ∈ ["alta"; "anio"] → obtener c (datos ej_fechas) = Some s →
        ∃ v', obtener c (datos d') = Some (SFecha v')
          ∧ match s with
            | STexto v => v' = (λ x, x ≫= parse_ej v) <$> v
            | SNum v => v' = (λ x : option Qc, x ≫= λ _, None) <$> v
            | SFecha v => v' = v
            end.
Proof.
  apply (convertir_a_fecha_nulos parse_ej (λ _, None) [ej_fechas] 0%nat ej_fechas).
  - reflexivity.
  - repeat constructor.
Defined.

(** The column ["alta"] of the example: the date is read, the word is not
    and becomes null, the null stays. *)
Example convertir_a_fecha_ej :
  convertir_a_fecha parse_ej (λ _, None) 0%nat ["alta"] [ej_fechas]
  = (Ok 0%nat,
     [mkDF [0; 1; 2]%nat
        [("alta", SFecha [Some 18262%Z; None; None]);
         ("anio", SNum [num 1999; None; num 2009])]]).
Proof. reflexivity. Qed.

(** ** [resumen_nulos] *)

#[global] Instance antes_trans : Transitive antes.
Proof.
  intros a b c. unfold antes.
  destruct (porcentaje_nulos a), (porcentaje_nulos b), (porcentaje_nulos c);
    try done.
  intros ??. by etrans.
Qed.

#[global] Instance antes_total : Total antes.
Proof.
  intros a b. unfold antes.
  destruct (porcentaje_nulos a) as [x|], (porcentaje_nulos b) as [y|]; auto.
  destruct (total Qcle x y); auto.
Qed.

Lemma contar_nulos_celdas s :
  contar_nulos s = length (filter (λ c, c = None) (celdas s)).
Proof.
  unfold contar_nulos, isnull.
  induction (celdas s) as [|c l IH]; [done|].
  rewrite fmap_cons, !filter_cons.
  destruct (decide (c = None)) as [->|Hc].
  - rewrite decide_True by done. simpl. by rewrite IH.
  - rewrite decide_False; [done|].
    by rewrite bool_decide_eq_false_2.
Qed.

(** C8: [resumen_nulos] returns, without touching the store, one row per
    column of the frame with the number of its nulls and that number over
    the number of rows as a percentage (NaN for a frame without rows), the
    rows in descending order of the percentage. *)
Theorem resumen_nulos_ordenado (h : almacen) df d :
  h !! df = Some d →
  ∃ r, resumen_nulos df h = (Ok r, h)
       ∧ r ≡ₚ resumen_de d
       ∧ StronglySorted antes r.
Proof.
  intros Hdf. unfold resumen_nulos. eexists. split; [|split].
  - paso. reflexivity.
  - unfold sort_values. rewrite merge_sort_Permutation.
    unfold resumen_de. rewrite <-list_fmap_compose.
    assert (∀ l1 l2 : list fila_resumen, l1 = l2 → l1 ≡ₚ l2) as Heq
      by (by intros ?? ->).
    apply Heq, list_fmap_ext. intros _ [c s] _. simpl.
    rewrite contar_nulos_celdas. unfold dividir.
    by destruct (length (index d)).
  - apply StronglySorted_merge_sort; apply _.
Qed.

Lemma resumen_nulos_ordenado_witness :
  ∃ r, resumen_nulos 0%nat [ej_texto] = (Ok r, [ej_texto])
       ∧ r ≡ₚ resumen_de ej_texto
       ∧ StronglySorted antes r.
Proof. apply (resumen_nulos_ordenado [ej_texto] 0%nat ej_texto). reflexivity. Defined.

(** ** [evaluar_fila] *)

Lemma filtrar_nil_r {A} (m : list bool) : filtrar m ([] : list A) = [].
Proof. unfold filtrar. by rewrite zip_with_nil_r. Qed.

Lemma filtrar_cons {A} b (m : list bool) (x : A) l :
  filtrar (b :: m) (x :: l) = if b then x :: filtrar m l else filtrar m l.
Proof. unfold filtrar. simpl. rewrite filter_cons. by destruct b. Qed.

Lemma filtrar_fmap {A B} (f : A → B) (m : list bool) l :
  filtrar m (f <$> l) = f <$> filtrar m l.
Proof.
  revert l. induction m as [|b m IH]; intros [|x l]; try done.
  rewrite fmap_cons, !filtrar_cons, IH. by destruct b.
Qed.

Lemma filtrar_zip_with {A B C} (f : A → B → C) (m : list bool) l k :
  filtrar m (zip_with f l k) = zip_with f (filtrar m l) (filtrar m k).
Proof.
  revert l k. induction m as [|b m IH]; intros [|x l] [|y k]; try done.
  - by rewrite zip_with_nil_r, !filtrar_nil_r, zip_with_nil_r.
  - simpl zip_with. rewrite !filtrar_cons, IH. by destruct b.
Qed.

(** Two selections in a row are one selection. *)
Lemma filtrar_filtrar {A B} (g : B → bool) (m : list bool) (cnt : list B)
    (l : list A) :
  filtrar (g <$> filtrar m cnt) (filtrar m l)
  = filtrar (zip_with (λ b n, b && g n) m cnt) l.
Proof.
  revert cnt l. induction m as [|b m IH]; intros cnt l; [done|].
  destruct cnt as [|n cnt]; [by rewrite filtrar_nil_r|].
  destruct l as [|x l]; [by rewrite !filtrar_nil_r|].
  simpl zip_with. rewrite !filtrar_cons. destruct b; simpl; [|apply IH].
  rewrite filtrar_cons, IH. by destruct (g n).
Qed.

Lemma filtrar_replicate {A B} (m : list bool) (idx : list A) (x : B) :
  length m = length idx →
  filtrar m (replicate (length idx) x)
  = replicate (length (filtrar m idx)) x.
Proof.
  revert idx. induction m as [|b m IH]; intros [|i idx] Hlen; try done.
  simpl in Hlen. simpl replicate. rewrite !filtrar_cons.
  destruct b; simpl; rewrite IH by lia; done.
Qed.

Lemma celdas_seleccionar m s : celdas (seleccionar m s) = filtrar m (celdas s).
Proof. destruct s; simpl; by rewrite filtrar_fmap. Qed.

Lemma notnull_seleccionar m s :
  notnull (seleccionar m s) = filtrar m (notnull s).
Proof.
  unfold notnull, isnull. by rewrite celdas_seleccionar, !filtrar_fmap.
Qed.

Lemma contar_no_nulos_filas {A} m (idx : list A) cols :
  length m = length idx →
  contar_no_nulos (seleccionar m <$> cols) (length (filtrar m idx))
  = filtrar m (contar_no_nulos cols (length idx)).
Proof.
  intros Hlen. unfold contar_no_nulos.
  induction cols as [|s cols IH].
  - simpl. by rewrite filtrar_replicate.
  - rewrite fmap_cons. cbn [foldr].
    by rewrite IH, notnull_seleccionar, filtrar_zip_with, filtrar_fmap.
Qed.

Lemma obtener_filas d m c :
  obtener c (datos (filas d m)) = seleccionar m <$> obtener c (datos d).
Proof.
  simpl. induction (datos d) as [|[c0 s0] l IH]; [done|].
  rewrite fmap_cons. simpl. by destruct (decide (c0 = c)).
Qed.

Lemma getitem_filas d m c :
  getitem (filas d m) c = s ← getitem d c; Ok (seleccionar m s).
Proof.
  unfold getitem. rewrite obtener_filas.
  by destruct (obtener c (datos d)).
Qed.

Lemma recorrer_getitem_filas d m cs cols :
  recorrer (getitem d) cs = Ok cols →
  recorrer (getitem (filas d m)) cs = Ok (seleccionar m <$> cols).
Proof.
  revert cols. induction cs as [|c cs IH]; intros cols.
  { by intros [= <-]. }
  rewrite !recorrer_cons, getitem_filas.
  destruct (getitem d c) as [s|]; simpl; [|done].
  destruct (recorrer (getitem d) cs) as [ss|]; simpl; [|done].
  intros [= <-]. by rewrite (IH ss).
Qed.

Lemma seleccionar_seleccionar {B} (g : B → bool) m (cnt : list B) s :
  seleccionar (g <$> filtrar m cnt) (seleccionar m s)
  = seleccionar (zip_with (λ b n, b && g n) m cnt) s.
Proof. destruct s; simpl; by rewrite filtrar_filtrar. Qed.

Lemma filas_filas {B} (g : B → bool) m (cnt : list B) d :
  filas (filas d m) (g <$> filtrar m cnt)
  = filas d (zip_with (λ b n, b && g n) m cnt).
Proof.
  unfold filas. simpl. rewrite filtrar_filtrar. f_equal.
  rewrite <-list_fmap_compose. apply list_fmap_ext.
  intros _ [c s] _. simpl. unfold prod_map. simpl.
  by rewrite seleccionar_seleccionar.
Qed.

Lemma poner_cons c s c' s' (l : list (string * Series)) :
  poner c s ((c', s') :: l)
  = if decide (c' = c) then (c, s) :: l else (c', s') :: poner c s l.
Proof. done. Qed.

Lemma filter_poner c p (g : Series → Series) (l : list (string * Series)) :
  filter (λ q, q.1 ≠ c) (prod_map id g <$> poner c p l)
  = filter (λ q, q.1 ≠ c) (prod_map id g <$> l).
Proof.
  induction l as [|[c0 s0] l IH].
  - simpl. rewrite filter_cons. by rewrite decide_False by (by intros []).
  - rewrite poner_cons. destruct (decide (c0 = c)) as [->|Hne].
    + rewrite !fmap_cons, !filter_cons.
      by rewrite !decide_False by (by intros []).
    + rewrite !fmap_cons, !filter_cons, IH. done.
Qed.

(** The working column leaves no trace once it is dropped. *)
Lemma drop_filas_con_columna d c p m :
  drop (filas (con_columna d c p) m) c = drop (filas d m) c.
Proof. unfold drop, filas, con_columna. simpl. f_equal. apply filter_poner. Qed.

Lemma drop_sin_columna d c : c ∉ columns d → drop d c = d.
Proof.
  intros Hc. unfold drop. destruct d as [idx l]. simpl in *. f_equal.
  unfold columns in Hc. simpl in Hc.
  induction l as [|[c0 s0] l IH]; [done|].
  rewrite fmap_cons, not_elem_of_cons in Hc. destruct Hc as [Hne Hc].
  rewrite filter_cons. simpl. rewrite decide_True by done. by rewrite IH.
Qed.

Lemma isnull_length d c s :
  bien_formado d = true → obtener c (datos d) = Some s →
  length (isnull s) = length (index d).
Proof.
  intros Hwf Hs. unfold isnull. rewrite length_fmap.
  by eapply bien_formado_length.
Qed.

Lemma insertar_ultimo {A} (l : list A) x y : <[length l := y]> (l ++ [x]) = l ++ [y].
Proof.
  rewrite insert_app_r_alt by lia. by rewrite Nat.sub_diag.
Qed.

Lemma lookup_ultimo {A} (l : list A) x : (l ++ [x]) !! length l = Some x.
Proof. by rewrite list_lookup_middle. Qed.

(** The call in closed form: three working frames and the result are added
    to the store, and nothing that was in the store changes. *)
Lemma evaluar_fila_spec (h : almacen) df d columna_nula columnas_clave umbral
    s cols :
  h !! df = Some d → bien_formado d = true →
  getitem d columna_nula = Ok s →
  recorrer (getitem d) columnas_clave = Ok cols →
  ∃ d1 d2 d3,
    evaluar_fila df columna_nula columnas_clave umbral h
    = (Ok (length h + 3)%nat,
       h ++ [d1; d2; d3;
             drop (filas d (mascara s cols (length columnas_clave) umbral
                              (length (index d))))
                  proporcion_datos_importantes]).
Proof.
  intros Hdf Hwf Hs Hcols.
  set (m1 := isnull s). set (d1 := filas d m1).
  set (g := λ n, match dividir n (length columnas_clave) with
                 | Some x => bool_decide (x < umbral)
                 | None => false
                 end).
  set (cuenta := contar_no_nulos cols (length (index d))).
  set (p := SNum ((λ n, dividir n (length columnas_clave))
                    <$> filtrar m1 cuenta)).
  set (d2 := con_columna d1 proporcion_datos_importantes p).
  set (d3 := filas d2 (g <$> filtrar m1 cuenta)).
  exists d1, d2, d3.
  assert (length m1 = length (index d)) as Hm1.
  { unfold getitem in Hs. destruct (obtener columna_nula (datos d)) eqn:Ho;
      [|done]. injection Hs as ->. by eapply isnull_length. }
  unfold evaluar_fila. paso.
  rewrite (bind_Ok _ _ h h s) by (unfold lift; by rewrite Hs).
  paso. fold m1 d1.
  rewrite (bind_Ok _ _ _ _ _ (leer_Ok _ _ _ (lookup_ultimo h d1))).
  paso.
  rewrite (bind_Ok _ _ _ _ _ (leer_Ok _ _ _ (lookup_ultimo (h ++ [d1]) d1))).
  rewrite (bind_Ok _ _ _ ((h ++ [d1]) ++ [d1]) (seleccionar m1 <$> cols)).
  2: { unfold lift, d1. by rewrite (recorrer_getitem_filas _ _ _ _ Hcols). }
  assert (contar_no_nulos (seleccionar m1 <$> cols) (length (index d1))
          = filtrar m1 cuenta) as ->.
  { unfold d1. simpl. by apply contar_no_nulos_filas. }
  fold p.
  rewrite (bind_Ok _ _ _ _ _
             (setitem_Ok _ _ _ proporcion_datos_importantes p
                (lookup_ultimo (h ++ [d1]) d1))).
  rewrite insertar_ultimo. fold d2.
  rewrite (bind_Ok _ _ _ _ _ (leer_Ok _ _ _ (lookup_ultimo (h ++ [d1]) d2))).
  rewrite (bind_Ok _ _ _ ((h ++ [d1]) ++ [d2]) p).
  2: { unfold lift, getitem, d2. simpl. by rewrite obtener_poner_eq. }
  rewrite (bind_Ok _ _ _ ((h ++ [d1]) ++ [d2]) (g <$> filtrar m1 cuenta)).
  2: { unfold lift, menor, p. by rewrite <-list_fmap_compose. }
  paso. fold d3.
  rewrite (bind_Ok _ _ _ _ _
             (leer_Ok _ _ _ (lookup_ultimo ((h ++ [d1]) ++ [d2]) d3))).
  rewrite nuevo_Ok. f_equal.
  - rewrite !length_app. simpl. f_equal. lia.
  - rewrite <-!app_assoc. simpl. do 4 f_equal.
    unfold d3, d2. rewrite drop_filas_con_columna. unfold d1.
    by rewrite filas_filas.
Qed.

Lemma bien_formado_Forall d cs cols :
  bien_formado d = true → recorrer (getitem d) cs = Ok cols →
  Forall (λ s, length (celdas s) = length (index d)) cols.
Proof.
  intros Hwf. revert cols. induction cs as [|c cs IH]; intros cols.
  { intros [= <-]. constructor. }
  rewrite recorrer_cons.
  destruct (getitem d c) as [s|] eqn:Hs; simpl; [|done].
  destruct (recorrer (getitem d) cs) as [ss|]; simpl; [|done].
  intros [= <-]. apply getitem_Ok in Hs.
  constructor; [by eapply bien_formado_length|by apply IH].
Qed.

(** The count of a row is the number of key columns with a value in it. *)
Lemma contar_no_nulos_lookup cols n i :
  (i < n)%nat → Forall (λ s, length (celdas s) = n) cols →
  contar_no_nulos cols n !! i
  = Some (length (filter (λ c, presente c i = true) cols)).
Proof.
  intros Hi. unfold contar_no_nulos.
  induction 1 as [|s cols Hs Hcols IH].
  { simpl. by apply lookup_replicate_2. }
  cbn [foldr]. rewrite lookup_zip_with, IH, list_lookup_fmap.
  unfold notnull, isnull. rewrite !list_lookup_fmap.
  rewrite filter_cons.
  destruct (lookup_lt_is_Some_2 (celdas s) i) as [c Hc]; [lia|].
  rewrite Hc. simpl. destruct c as [c|]; simpl.
  - by rewrite decide_True by (unfold presente; by rewrite Hc).
  - by rewrite decide_False by (unfold presente; by rewrite Hc).
Qed.

(** The mask of the code is the mask of the specification. *)
Lemma mascara_candidatas d c s cs cols umbral :
  bien_formado d = true →
  obtener c (datos d) = Some s →
  recorrer (getitem d) cs = Ok cols →
  mascara s cols (length cs) umbral (length (index d))
  = candidatas s cols umbral (length (index d)).
Proof.
  intros Hwf Hs Hcols.
  pose proof (bien_formado_length _ _ _ Hwf Hs) as Hlen.
  pose proof (bien_formado_Forall _ _ _ Hwf Hcols) as Hall.
  pose proof (recorrer_length _ _ _ Hcols) as Hn.
  apply list_eq. intros i. unfold mascara, candidatas.
  rewrite lookup_zip_with, list_lookup_fmap.
  destruct (decide (i < length (index d))%nat) as [Hi|Hi].
  - rewrite lookup_seq_lt by done.
    rewrite (contar_no_nulos_lookup _ _ _ Hi Hall).
    unfold isnull. rewrite list_lookup_fmap.
    destruct (lookup_lt_is_Some_2 (celdas s) i) as [x Hx]; [lia|].
    rewrite Hx. simpl. unfold candidata. rewrite Hx, Hn.
    f_equal. f_equal. apply bool_decide_ext. split; congruence.
  - rewrite lookup_seq_ge by lia. simpl.
    assert (isnull s !! i = None) as ->; [|done].
    apply lookup_ge_None. unfold isnull. rewrite length_fmap. lia.
Qed.

(** C6, as the code has it: for a frame that has no column named
    [proporcion_datos_importantes], [evaluar_fila] returns a new frame
    with exactly the rows whose target is null and whose share of key
    columns with a value is below the threshold; the frame it was given,
    and every frame of the store, is as it was. *)
Theorem evaluar_fila_candidatas (h : almacen) df d columna_nula columnas_clave
    umbral s cols :
  h !! df = Some d → bien_formado d = true →
  getitem d columna_nula = Ok s →
  recorrer (getitem d) columnas_clave = Ok cols →
  proporcion_datos_importantes ∉ columns d →
  ∃ r (h' : almacen),
    evaluar_fila df columna_nula columnas_clave umbral h = (Ok r, h')
    ∧ h `prefix_of` h'
    ∧ h' !! df = Some d
    ∧ h' !! r = Some (filas d (candidatas s cols umbral (length (index d)))).
Proof.
  intros Hdf Hwf Hs Hcols Hno.
  destruct (evaluar_fila_spec _ _ _ _ _ umbral _ _ Hdf Hwf Hs Hcols)
    as (d1 & d2 & d3 & Hcall).
  eexists _, _. split; [exact Hcall|]. split; [by eexists|]. split.
  - by apply lookup_app_l_Some.
  - rewrite lookup_app_r by lia.
    replace (length h + 3 - length h)%nat with 3%nat by lia. simpl.
    rewrite (mascara_candidatas _ _ _ _ _ _ Hwf (getitem_Ok _ _ _ Hs) Hcols).
    rewrite drop_sin_columna; [done|].
    unfold columns, filas. simpl. rewrite <-list_fmap_compose.
    by rewrite (list_fmap_ext _ fst (datos d)) by (by intros _ [] _).
Qed.

Lemma evaluar_fila_candidatas_witness :
  ∃ r (h' : almacen),
    evaluar_fila 0%nat "x" ["a"; "b"] (Q2Qc (7 # 10)) [ej_filas] = (Ok r, h')
    ∧ [ej_filas] `prefix_of` h'
    ∧ h' !! 0%nat = Some ej_filas
    ∧ h' !! r
      = Some (filas ej_filas
                (candidatas (SNum [None; num 3; None; None])
                   [STexto [Some "u"; None; None; Some "v"];
                    SNum [num 1; None; None; None]]
                   (Q2Qc (7 # 10)) 4)).
Proof.
  apply (evaluar_fila_candidatas [ej_filas] 0%nat ej_filas "x" ["a"; "b"]).
  - reflexivity.
  - reflexivity.
  - reflexivity.
  - reflexivity.
  - vm_compute. intros H. repeat (apply elem_of_cons in H as [H|H]; [done|]).
    by apply elem_of_nil in H.
Defined.

(** C6 as it is written, on a frame that has a column named
    [proporcion_datos_importantes]: the one row is a candidate (its target
    is null and no key column has a value), so the candidate rows are the
    whole frame, and the frame the call returns has lost that column. *)
Lemma evaluar_fila_contraejemplo :
  let r := evaluar_fila 0%nat "x" ["x"] (Q2Qc (7 # 10)) [ej_choque] in
  r.1 = Ok 4%nat
  ∧ r.2 !! 4%nat = Some (mkDF [0%nat] [("x", SNum [None])])
  ∧ filas ej_choque (candidatas (SNum [None]) [SNum [None]] (Q2Qc (7 # 10)) 1)
    = ej_choque
  ∧ r.2 !! 4%nat ≠ Some ej_choque.
Proof. repeat split; [vm_compute; reflexivity..|]. vm_compute. congruence. Qed.

(** ** Order statistics: bounds *)

Lemma ordenado_lookup (s : list Qc) i j x y :
  StronglySorted Qcle s → (i ≤ j)%nat →
  s !! i = Some x → s !! j = Some y → x ≤ y.
Proof.
  intros Hs. revert i j. induction Hs as [|a s Hs IH Ha]; intros i j Hij Hi Hj.
  { by rewrite lookup_nil in Hi. }
  destruct i as [|i], j as [|j]; simpl in *; try lia.
  - injection Hi as ->. injection Hj as ->. done.
  - injection Hi as ->. rewrite list.Forall_forall in Ha.
    by eapply Ha, list_elem_of_lookup_2.
  - eapply (IH i j); [lia|done..].
Qed.

(** A part over the whole is a share. *)
Lemma cociente_rango (n m : nat) :
  (n ≤ m)%nat → (0 < m)%nat →
  0 ≤ Qc_of_Z (Z.of_nat n) / Qc_of_Z (Z.of_nat m)
  ∧ Qc_of_Z (Z.of_nat n) / Qc_of_Z (Z.of_nat m) ≤ 1.
Proof.
  intros Hn Hm.
  assert (0 < Qc_of_Z (Z.of_nat m)) as Hpos
    by (rewrite <-Z2Qc_inj_0; apply (proj1 (Z2Qc_inj_lt _ _)); lia).
  assert (0 ≤ Qc_of_Z (Z.of_nat n)) as Hnn
    by (rewrite <-Z2Qc_inj_0; apply (proj1 (Z2Qc_inj_le _ _)); lia).
  split.
  - apply Qcmult_nonneg_nonneg; [done|]. by apply Qclt_le_weak, Qcinv_pos.
  - apply (Qcmult_le_mono_pos_r _ _ (Qc_of_Z (Z.of_nat m))); [done|].
    unfold Qcdiv. rewrite <-Qcmult_assoc, Qcmult_inv_l, Qcmult_1_r, Qcmult_1_l.
    + apply (proj1 (Z2Qc_inj_le _ _)). lia.
    + intros Heq. rewrite Heq in Hpos. by apply Qclt_not_eq in Hpos.
Qed.

(** The weight of the interpolation is a share. *)
Lemma peso_rango (n : nat) :
  (n < 100)%nat →
  0 ≤ Qc_of_Z (Z.of_nat n) / Qc_of_Z 100
  ∧ Qc_of_Z (Z.of_nat n) / Qc_of_Z 100 ≤ 1.
Proof. intros Hn. apply (cociente_rango n 100); lia. Qed.

Lemma peso_mono (n m : nat) :
  (n ≤ m)%nat →
  Qc_of_Z (Z.of_nat n) / Qc_of_Z 100 ≤ Qc_of_Z (Z.of_nat m) / Qc_of_Z 100.
Proof.
  intros Hnm. apply Qcmult_le_mono_nonneg_r.
  - apply Qclt_le_weak, Qcinv_pos. rewrite <-Z2Qc_inj_0. by apply Z2Qc_inj_lt.
  - apply (proj1 (Z2Qc_inj_le _ _)). lia.
Qed.

(** A value interpolated between two numbers lies between them. *)
Lemma interpolar_rango (lo hi w : Qc) :
  lo ≤ hi → 0 ≤ w → w ≤ 1 →
  lo ≤ lo + (hi - lo) * w ∧ lo + (hi - lo) * w ≤ hi.
Proof.
  intros Hlh H0 H1.
  assert (0 ≤ hi - lo) as Hd.
  { apply Qcle_minus_iff in Hlh. by replace (hi - lo) with (hi + - lo) by ring. }
  split.
  - rewrite <-(Qcplus_0_r lo) at 1. apply Qcplus_le_mono_l.
    by apply Qcmult_nonneg_nonneg.
  - replace hi with (lo + (hi - lo) * 1) at 2 by ring.
    apply Qcplus_le_mono_l. by apply Qcmult_le_mono_nonneg_l.
Qed.

Lemma interpolar_mono (lo hi w1 w2 : Qc) :
  lo ≤ hi → w1 ≤ w2 → lo + (hi - lo) * w1 ≤ lo + (hi - lo) * w2.
Proof.
  intros Hlh Hw. apply Qcplus_le_mono_l, Qcmult_le_mono_nonneg_l; [|done].
  apply Qcle_minus_iff in Hlh. by replace (hi - lo) with (hi + - lo) by ring.
Qed.

(** A percentile is interpolated between two values of the array, the
    lower one first. *)
Lemma percentil_Some a p v :
  Stats.percentil a p = Some v →
  ∃ lo hi w,
    lo ∈ a ∧ hi ∈ a ∧ lo ≤ hi ∧ 0 ≤ w ∧ w ≤ 1 ∧ v = lo + (hi - lo) * w.
Proof.
  unfold Stats.percentil.
  pose proof (StatsFacts.ordenar_sorted a) as Hs.
  destruct (length (Stats.ordenar a)) as [|m] eqn:Hn; [done|].
  destruct (Stats.ordenar a !! (m * p / 100)%nat) as [lo|] eqn:Hlo; [|done].
  destruct (Stats.ordenar a !! Nat.min (m * p / 100 + 1) m) as [hi|] eqn:Hhi;
    [|done].
  simpl. intros [= <-].
  assert (m * p / 100 < S m)%nat as Hi by (rewrite <-Hn; by eapply lookup_lt_Some).
  destruct (peso_rango ((m * p) mod 100)) as [H0 H1].
  { apply Nat.mod_upper_bound. lia. }
  exists lo, hi, (Qc_of_Z (Z.of_nat ((m * p) mod 100)) / Qc_of_Z 100).
  split; [by eapply StatsFacts.elem_of_ordenar, list_elem_of_lookup_2|].
  split; [by eapply StatsFacts.elem_of_ordenar, list_elem_of_lookup_2|].
  split; [|done].
  eapply (ordenado_lookup _ (m * p / 100) (Nat.min (m * p / 100 + 1) m));
    [done|lia|done..].
Qed.

(** A percentile lies between two values of the array. *)
Lemma percentil_rango a p v :
  Stats.percentil a p = Some v →
  ∃ lo hi, lo ∈ a ∧ hi ∈ a ∧ lo ≤ v ∧ v ≤ hi.
Proof.
  intros (lo & hi & w & Hlo & Hhi & Hlh & H0 & H1 & ->)%percentil_Some.
  exists lo, hi. split; [done|]. split; [done|].
  by apply interpolar_rango.
Qed.

(** The percentiles of an array grow with the percentage. *)
Lemma percentil_mono a p q x y :
  (p ≤ q)%nat →
  Stats.percentil a p = Some x → Stats.percentil a q = Some y → x ≤ y.
Proof.
  intros Hpq. unfold Stats.percentil.
  pose proof (StatsFacts.ordenar_sorted a) as Hs.
  destruct (length (Stats.ordenar a)) as [|m] eqn:Hn; [done|].
  set (s := Stats.ordenar a) in *.
  set (ip := (m * p / 100)%nat). set (iq := (m * q / 100)%nat).
  set (w1 := Qc_of_Z (Z.of_nat ((m * p) mod 100)) / Qc_of_Z 100).
  set (w2 := Qc_of_Z (Z.of_nat ((m * q) mod 100)) / Qc_of_Z 100).
  destruct (s !! ip) as [lo1|] eqn:Hlo1; [|done].
  destruct (s !! Nat.min (ip + 1) m) as [hi1|] eqn:Hhi1; [|done].
  destruct (s !! iq) as [lo2|] eqn:Hlo2; [|done].
  destruct (s !! Nat.min (iq + 1) m) as [hi2|] eqn:Hhi2; [|done].
  simpl. intros [= <-] [= <-].
  assert (m * p ≤ m * q)%nat as Hpos by nia.
  assert (ip ≤ iq)%nat as Hi by (by apply Nat.Div0.div_le_mono).
  assert (ip < S m)%nat as Hip by (rewrite <-Hn; by eapply lookup_lt_Some).
  assert (iq < S m)%nat as Hiq by (rewrite <-Hn; by eapply lookup_lt_Some).
  pose proof (Nat.div_mod_eq (m * p) 100) as Ep. fold ip in Ep.
  pose proof (Nat.div_mod_eq (m * q) 100) as Eq. fold iq in Eq.
  assert ((m * p) mod 100 < 100)%nat as Hmp by (apply Nat.mod_upper_bound; lia).
  assert ((m * q) mod 100 < 100)%nat as Hmq by (apply Nat.mod_upper_bound; lia).
  clearbody ip iq.
  assert (lo1 ≤ hi1) as H1.
  { eapply (ordenado_lookup s ip (Nat.min (ip + 1) m)); [done|lia|done..]. }
  assert (lo2 ≤ hi2) as H2.
  { eapply (ordenado_lookup s iq (Nat.min (iq + 1) m)); [done|lia|done..]. }
  destruct (peso_rango _ Hmp) as [Hp0 Hp1]. fold w1 in Hp0, Hp1.
  destruct (peso_rango _ Hmq) as [Hq0 Hq1]. fold w2 in Hq0, Hq1.
  destruct (decide (ip = iq)) as [Heq|Hne].
  - rewrite <-Heq in Hlo2, Hhi2.
    assert (lo2 = lo1) as -> by congruence.
    assert (hi2 = hi1) as -> by congruence.
    apply interpolar_mono; [done|]. apply peso_mono. lia.
  - transitivity hi1; [by apply interpolar_rango|].
    transitivity lo2; [|by apply interpolar_rango].
    eapply (ordenado_lookup s (Nat.min (ip + 1) m) iq); [done|lia|done..].
Qed.

(** ** [calcular_iqr] and [imputar_fecha]: outcomes *)

Lemma elem_of_dropna x g : x ∈ Stats.dropna g ↔ Some x ∈ g.
Proof.
  unfold Stats.dropna. rewrite list_elem_of_omap. split.
  - by intros ([y|] & Hy & [= ->]).
  - intros Hx. by exists (Some x).
Qed.

Lemma fillna_lookup_Some v g i x :
  g !! i = Some (Some x) → Stats.fillna v g !! i = Some (Some x).
Proof. intros Hi. unfold Stats.fillna. by rewrite list_lookup_fmap, Hi. Qed.

Lemma fillna_lookup_None v g i :
  g !! i = Some None → Stats.fillna v g !! i = Some v.
Proof. intros Hi. unfold Stats.fillna. by rewrite list_lookup_fmap, Hi. Qed.

Lemma fillna_sin_nulos v g : None ∉ Stats.fillna (Some v) g.
Proof.
  unfold Stats.fillna. intros ([x|] & Hx & _)%list_elem_of_fmap; done.
Qed.

(** X1: [imputar_fecha] raises exactly on a group without a value, and
    what it raises is the [TypeError] of [calcular_iqr].  On every other
    group it returns the group with no null left: as many rows, and each
    value that was there still in its row. *)
Theorem imputar_fecha_resultado u g :
  if decide (Stats.dropna g = []) then imputar_fecha u g = Raise TypeError
  else ∃ r, imputar_fecha u g = Ok r
            ∧ length r = length g
            ∧ (None ∉ r)
            ∧ ∀ i x, g !! i = Some (Some x) → r !! i = Some (Some x).
Proof.
  case_decide as Hg; [by apply imputar_fecha_vacio|].
  rewrite imputar_fecha_relleno by done.
  destruct (relleno_spec u g Hg) as (v & -> & _).
  eexists. split; [done|]. split; [|split].
  - unfold Stats.fillna. by rewrite length_fmap.
  - apply fillna_sin_nulos.
  - intros i x. apply fillna_lookup_Some.
Qed.

(** X2: the handler [except IndexError] of [imputar_fecha] never runs.
    The function is the one its body is without the [try]: the mode of a
    group is missing only when the group has no value, and then
    [calcular_iqr] has raised before the mode is asked for. *)
Theorem imputar_fecha_sin_manejador u g :
  imputar_fecha u g
  = (dispersion ← calcular_iqr g;
     if Stats.mayor dispersion u then
       Ok (Stats.fillna (Stats.median g) g)
     else
       m ← indexar (Stats.mode (Stats.dropna g)).1 0;
       Ok (Stats.fillna (Some m) g)).
Proof.
  unfold imputar_fecha.
  destruct (decide (Stats.dropna g = [])) as [Hg|Hg].
  { by rewrite calcular_iqr_vacio. }
  rewrite calcular_iqr_Ok by done. simpl.
  destruct (Stats.mayor _ _); [done|].
  destruct (StatsFacts.mode_es_moda _ Hg) as (m & -> & _). done.
Qed.

Lemma calcular_iqr_rango g :
  Stats.dropna g ≠ [] →
  ∃ q1 q3,
    Stats.percentil (Stats.dropna g) 25 = Some q1
    ∧ Stats.percentil (Stats.dropna g) 75 = Some q3
    ∧ calcular_iqr g = Ok (Some (q3 - q1))
    ∧ 0 ≤ q3 - q1.
Proof.
  intros Hg.
  destruct (StatsFacts.percentil_is_Some (Stats.dropna g) 25 Hg) as [q1 H1];
    [lia|].
  destruct (StatsFacts.percentil_is_Some (Stats.dropna g) 75 Hg) as [q3 H3];
    [lia|].
  exists q1, q3. split; [done|]. split; [done|]. split.
  - rewrite calcular_iqr_Ok by done. by rewrite H1, H3.
  - assert (q1 ≤ q3) as Hle by (eapply (percentil_mono _ 25 75); [lia|done..]).
    apply Qcle_minus_iff in Hle. by replace (q3 - q1) with (q3 + - q1) by ring.
Qed.

(** X3: the interquartile range [calcular_iqr] returns for a group that
    has a value is a number, and it is never negative. *)
Theorem calcular_iqr_no_negativo g :
  Stats.dropna g ≠ [] → ∃ x, calcular_iqr g = Ok (Some x) ∧ 0 ≤ x.
Proof.
  intros Hg. destruct (calcular_iqr_rango g Hg) as (q1 & q3 & _ & _ & H & H0).
  by exists (q3 - q1).
Qed.

Lemma calcular_iqr_no_negativo_witness :
  ∃ x, calcular_iqr [num 10; None; num 20; num 40] = Ok (Some x) ∧ 0 ≤ x.
Proof. apply (calcular_iqr_no_negativo [num 10; None; num 20; num 40]). done. Defined.

(** X4: with a negative threshold every group that has a value is filled
    with its median, whatever its values: the range is never below
    zero, so it is always above the threshold. *)
Theorem imputar_fecha_umbral_negativo u g :
  u < 0 → Stats.dropna g ≠ [] →
  imputar_fecha u g = Ok (Stats.fillna (Stats.median g) g).
Proof.
  intros Hu Hg. unfold imputar_fecha.
  destruct (calcular_iqr_rango g Hg) as (q1 & q3 & _ & _ & -> & H0). simpl.
  rewrite bool_decide_eq_true_2; [done|]. by eapply Qclt_le_trans.
Qed.

Lemma imputar_fecha_umbral_negativo_witness :
  imputar_fecha (Qc_of_Z (-1)) [num 7; None; num 7]
  = Ok (Stats.fillna (Stats.median [num 7; None; num 7]) [num 7; None; num 7]).
Proof.
  apply (imputar_fecha_umbral_negativo (Qc_of_Z (-1)) [num 7; None; num 7]);
    done.
Defined.

Lemma percentil_constante a p x v :
  (∀ y, y ∈ a → y = x) → Stats.percentil a p = Some v → v = x.
Proof.
  intros Ha (lo & hi & w & Hlo & Hhi & _ & _ & _ & ->)%percentil_Some.
  rewrite (Ha lo Hlo), (Ha hi Hhi). ring.
Qed.

(** X5: a group whose values are all the same number has its nulls
    filled with that number, whatever the threshold is. *)
Theorem imputar_fecha_constante u g x :
  Stats.dropna g ≠ [] → (∀ y, Some y ∈ g → y = x) →
  imputar_fecha u g = Ok (Stats.fillna (Some x) g).
Proof.
  intros Hg Hx. rewrite imputar_fecha_relleno by done. do 2 f_equal.
  assert (∀ y, y ∈ Stats.dropna g → y = x) as Ha.
  { intros y Hy. by apply Hx, elem_of_dropna. }
  unfold relleno.
  destruct (StatsFacts.median_is_Some g Hg) as [v Hv].
  assert (Stats.median g = Some x) as Hmed.
  { rewrite Hv. f_equal. rewrite StatsFacts.median_percentil in Hv.
    by eapply percentil_constante. }
  destruct (Stats.mayor _ _); [done|].
  destruct (StatsFacts.mode_es_moda _ Hg) as (m & -> & Hm & _). simpl.
  f_equal. by apply Ha.
Qed.

Lemma imputar_fecha_constante_witness :
  imputar_fecha (Qc_of_Z 60) [num 7; None; num 7]
  = Ok (Stats.fillna (num 7) [num 7; None; num 7]).
Proof.
  apply (imputar_fecha_constante (Qc_of_Z 60) [num 7; None; num 7]
           (Qc_of_Z 7)); [done|].
  intros y Hy. unfold num in Hy.
  repeat (apply elem_of_cons in Hy as [Hy|Hy]; [congruence|]).
  by apply elem_of_nil in Hy.
Defined.

(** X6: the value [imputar_fecha] puts in a null lies between two values
    of the group: no number below the smallest or above the largest value
    of the group is written. *)
Theorem imputar_fecha_rango u g r i :
  imputar_fecha u g = Ok r → g !! i = Some None →
  ∃ v lo hi,
    r !! i = Some (Some v) ∧ Some lo ∈ g ∧ Some hi ∈ g ∧ lo ≤ v ∧ v ≤ hi.
Proof.
  intros Hr Hi.
  destruct (decide (Stats.dropna g = [])) as [Hg|Hg].
  { by rewrite imputar_fecha_vacio in Hr. }
  rewrite imputar_fecha_relleno in Hr by done. injection Hr as <-.
  rewrite (fillna_lookup_None _ _ _ Hi). unfold relleno.
  destruct (StatsFacts.median_is_Some g Hg) as [v Hv].
  assert (∃ lo hi, Some lo ∈ g ∧ Some hi ∈ g ∧ lo ≤ v ∧ v ≤ hi) as Hmed.
  { rewrite StatsFacts.median_percentil in Hv.
    destruct (percentil_rango _ _ _ Hv) as (lo & hi & Hlo & Hhi & H1 & H2).
    exists lo, hi. by rewrite <-!elem_of_dropna. }
  destruct (Stats.mayor _ _).
  - destruct Hmed as (lo & hi & ?). exists v, lo, hi. by rewrite Hv.
  - destruct (StatsFacts.mode_es_moda _ Hg) as (m & -> & Hm & _). simpl.
    exists m, m, m. rewrite <-elem_of_dropna. done.
Qed.

Lemma imputar_fecha_rango_witness :
  ∃ v lo hi,
    Stats.fillna (relleno (Qc_of_Z 60) [num 10; None; num 900])
      [num 10; None; num 900] !! 1%nat = Some (Some v)
    ∧ Some lo ∈ [num 10; None; num 900] ∧ Some hi ∈ [num 10; None; num 900]
    ∧ lo ≤ v ∧ v ≤ hi.
Proof.
  apply (imputar_fecha_rango (Qc_of_Z 60) [num 10; None; num 900]);
    reflexivity.
Defined.

(** ** [elegir_imputacion]: outcomes *)

(** What a call that returns has gone through. *)
Lemma elegir_imputacion_Ok (h h' : almacen) df columna agrupacion u r :
  elegir_imputacion df columna agrupacion u h = (Ok r, h') →
  ∃ d claves vals,
    h !! df = Some d
    ∧ groupby d agrupacion = Ok claves
    ∧ getitem d columna = Ok (SNum vals)
    ∧ cada_grupo_con_valor claves vals = true.
Proof.
  intros Hrun.
  unfold elegir_imputacion, mbind, M_bind, leer, lift, setitem, mret, M_ret
    in Hrun.
  destruct (h !! df) as [d|] eqn:Hdf; [|done].
  destruct (groupby d agrupacion) as [claves|e] eqn:Hg; [|done].
  destruct (getitem d columna) as [[vals|v|v]|e] eqn:Hc; try done.
  simpl in Hrun. exists d, claves, vals. repeat (split; [done|]).
  destruct (cada_grupo_con_valor claves vals) eqn:Hval; [done|].
  by rewrite transform_vacio in Hrun.
Qed.

(** X7: a call of [elegir_imputacion] that raises has changed nothing:
    the column is assigned in the last step, after every group has been
    imputed, so the store is the one the call was given. *)
Theorem elegir_imputacion_excepcion (h h' : almacen) df columna agrupacion u e :
  elegir_imputacion df columna agrupacion u h = (Raise e, h') → h' = h.
Proof.
  unfold elegir_imputacion, mbind, M_bind, leer, lift, setitem, mret, M_ret.
  destruct (h !! df) as [d|] eqn:Hdf; [|by intros [= _ <-]].
  destruct (groupby d agrupacion) as [claves|e1]; [|by intros [= _ <-]].
  destruct (getitem d columna) as [s|e1]; [|by intros [= _ <-]].
  destruct (numerica s) as [vals|e1]; [|by intros [= _ <-]].
  destruct (transform _ _ _) as [res|e1]; [|by intros [= _ <-]].
  by rewrite Hdf.
Qed.

Lemma elegir_imputacion_excepcion_witness : [ej_grupo_nulo] = [ej_grupo_nulo].
Proof.
  apply (elegir_imputacion_excepcion [ej_grupo_nulo] [ej_grupo_nulo] 0%nat "x"
           ["g"] (Qc_of_Z 60) TypeError).
  reflexivity.
Defined.

(** A group has a value when one of its rows has. *)
Lemma grupo_con_valor_iff k claves vals :
  Stats.dropna (grupo k claves vals) ≠ []
  ↔ ∃ j x, claves !! j = Some k ∧ vals !! j = Some (Some x).
Proof.
  split.
  - intros Hg. destruct (Stats.dropna (grupo k claves vals)) as [|x a] eqn:Ha;
      [done|].
    assert (x ∈ Stats.dropna (grupo k claves vals)) as Hx by (rewrite Ha; left).
    apply elem_of_dropna in Hx. unfold grupo in Hx.
    apply list_elem_of_fmap in Hx as ([k' v] & Hv & Hin). simpl in Hv.
    subst v. apply list_elem_of_filter in Hin as [Hk Hin]. simpl in Hk.
    subst k'. apply elem_of_lookup_zip_with in Hin as (j & k' & v & Heq & Hj & Hv).
    injection Heq as <- <-. by exists j, x.
  - intros (j & x & Hj & Hx). by eapply grupo_con_valor.
Qed.

(** X8: on a frame that has the columns, and a numeric target, the call
    returns exactly when every row that has all its grouping values
    shares them with a row whose target is not null; otherwise it raises
    [TypeError] and the store is as it was. *)
Theorem elegir_imputacion_retorna (h : almacen) df d columna agrupacion u
    claves vals :
  h !! df = Some d → bien_formado d = true →
  groupby d agrupacion = Ok claves →
  getitem d columna = Ok (SNum vals) →
  let con_valor := ∀ i k, claves !! i = Some k → None ∉ k →
                     ∃ j x, claves !! j = Some k ∧ vals !! j = Some (Some x) in
  (con_valor → ∃ h', elegir_imputacion df columna agrupacion u h = (Ok df, h'))
  ∧ (¬ con_valor →
     elegir_imputacion df columna agrupacion u h = (Raise TypeError, h)).
Proof.
  intros Hdf Hwf Hg Hc con_valor.
  assert (cada_grupo_con_valor claves vals = true ↔ con_valor) as Hiff.
  { rewrite cada_grupo_con_valor_spec. unfold con_valor. split.
    - intros H i k Hi Hk. apply grupo_con_valor_iff, H, elem_of_nombres.
      split; [done|]. by eapply list_elem_of_lookup_2.
    - intros H k [Hk [i Hi]%list_elem_of_lookup]%elem_of_nombres.
      apply grupo_con_valor_iff. by eapply H. }
  split.
  - intros Hval%Hiff. eexists. by eapply elegir_imputacion_spec.
  - intros Hval. eapply elegir_imputacion_falla; [done..|].
    destruct (cada_grupo_con_valor claves vals); [|done].
    destruct Hval. by apply Hiff.
Qed.

Lemma elegir_imputacion_retorna_witness :
  let con_valor := ∀ i k, ej_grupos_claves !! i = Some k → None ∉ k →
                     ∃ j x, ej_grupos_claves !! j = Some k
                            ∧ ej_grupos_vals !! j = Some (Some x) in
  (con_valor →
   ∃ h', elegir_imputacion 0%nat "x" ["g"] (Qc_of_Z 60) [ej_grupos]
         = (Ok 0%nat, h'))
  ∧ (¬ con_valor →
     elegir_imputacion 0%nat "x" ["g"] (Qc_of_Z 60) [ej_grupos]
     = (Raise TypeError, [ej_grupos])).
Proof.
  apply (elegir_imputacion_retorna [ej_grupos] 0%nat ej_grupos "x" ["g"]);
    reflexivity.
Defined.

Lemma imputado_length u claves vals :
  length claves = length vals → length (imputado u claves vals) = length vals.
Proof. intros Hlen. unfold imputado. rewrite length_zip_with. lia. Qed.

(** X9: a call of [elegir_imputacion] that returns gives back the
    reference it was given and has changed one frame of the store in one
    column: the row labels, the names and the order of the columns and
    every column but the target are as they were, and the frame still has
    one value per row in every column. *)
Theorem elegir_imputacion_resto (h h' : almacen) df d columna agrupacion u r :
  h !! df = Some d → bien_formado d = true →
  elegir_imputacion df columna agrupacion u h = (Ok r, h') →
  r = df
  ∧ ∃ d', h' = <[df := d']> h
      ∧ index d' = index d
      ∧ columns d' = columns d
      ∧ bien_formado d' = true
      ∧ ∀ c, c ≠ columna → obtener c (datos d') = obtener c (datos d).
Proof.
  intros Hdf Hwf Hrun.
  destruct (elegir_imputacion_Ok _ _ _ _ _ _ _ Hrun)
    as (d0 & claves & vals & Hdf0 & Hg & Hc & Hval).
  assert (d0 = d) as -> by congruence.
  rewrite (elegir_imputacion_spec _ _ _ _ _ _ _ _ Hdf Hwf Hg Hc Hval) in Hrun.
  injection Hrun as <- <-. split; [done|]. eexists. split; [done|].
  split; [done|]. split; [|split].
  - apply poner_columns. by rewrite (getitem_Ok _ _ _ Hc).
  - apply bien_formado_con_columna; [done|].
    rewrite length_celdas_SNum, imputado_length.
    + rewrite <-(length_celdas_SNum vals).
      by eapply bien_formado_length, getitem_Ok.
    + by eapply claves_vals_length.
  - intros c Hne. by apply obtener_poner_ne.
Qed.

Lemma elegir_imputacion_resto_witness :
  0%nat = 0%nat
  ∧ ∃ d', [con_columna ej_grupos "x"
             (SNum (imputado (Qc_of_Z 60) ej_grupos_claves ej_grupos_vals))]
          = <[0%nat := d']> [ej_grupos]
      ∧ index d' = index ej_grupos
      ∧ columns d' = columns ej_grupos
      ∧ bien_formado d' = true
      ∧ ∀ c, c ≠ "x" → obtener c (datos d') = obtener c (datos ej_grupos).
Proof.
  apply (elegir_imputacion_resto [ej_grupos] _ 0%nat ej_grupos "x" ["g"]
           (Qc_of_Z 60)); reflexivity.
Defined.

(** X10: what a call that returns has written in the target column.  In
    a row that has all its grouping values a value that was there is
    kept; in a row with a null among its grouping values the target is
    null afterwards, whatever it was. *)
Theorem elegir_imputacion_filas (h h' : almacen) df d columna agrupacion u r
    claves vals :
  h !! df = Some d → bien_formado d = true →
  groupby d agrupacion = Ok claves →
  getitem d columna = Ok (SNum vals) →
  elegir_imputacion df columna agrupacion u h = (Ok r, h') →
  ∃ d' res,
    h' !! df = Some d'
    ∧ getitem d' columna = Ok (SNum res)
    ∧ length res = length vals
    ∧ ∀ i k, claves !! i = Some k →
        if decide (None ∈ k) then res !! i = Some None
        else ∀ x, vals !! i = Some (Some x) → res !! i = Some (Some x).
Proof.
  intros Hdf Hwf Hg Hc Hrun.
  destruct (elegir_imputacion_Ok _ _ _ _ _ _ _ Hrun)
    as (d0 & claves0 & vals0 & Hdf0 & Hg0 & Hc0 & Hval).
  assert (d0 = d) as -> by congruence.
  assert (claves0 = claves) as -> by congruence.
  assert (vals0 = vals) as -> by congruence.
  rewrite (elegir_imputacion_spec _ _ _ _ _ _ _ _ Hdf Hwf Hg Hc Hval) in Hrun.
  injection Hrun as <- <-.
  pose proof (claves_vals_length _ _ _ _ _ Hwf Hg Hc) as Hlen.
  eexists _, _. split.
  { apply list_lookup_insert_eq. by eapply lookup_lt_Some. }
  split.
  { unfold getitem, con_columna. simpl. by rewrite obtener_poner_eq. }
  split; [by apply imputado_length|].
  intros i k Hk.
  destruct (lookup_lt_is_Some_2 vals i) as [v Hv].
  { rewrite <-Hlen. by eapply lookup_lt_Some. }
  rewrite (imputado_lookup _ _ _ _ _ _ Hk Hv).
  case_decide; [done|]. intros x Hx. rewrite Hv in Hx. by injection Hx as ->.
Qed.

Lemma elegir_imputacion_filas_witness :
  ∃ d' res,
    [mkDF [0; 1; 2]%nat
       [("g", STexto [Some "a"; Some "a"; None]);
        ("x", SNum [num 1; num 1; None])]] !! 0%nat = Some d'
    ∧ getitem d' "x" = Ok (SNum res)
    ∧ length res = length [num 1; None; num 5]
    ∧ ∀ i k, claves_de [STexto [Some "a"; Some "a"; None]] 3 !! i = Some k →
        if decide (None ∈ k) then res !! i = Some None
        else ∀ x, [num 1; None; num 5] !! i = Some (Some x) →
                  res !! i = Some (Some x).
Proof.
  apply (elegir_imputacion_filas [ej_valor_sin_clave] _ 0%nat
           ej_valor_sin_clave "x" ["g"] (Qc_of_Z 60) 0%nat); reflexivity.
Defined.

Lemma recorrer_getitem_KeyError d cs :
  ¬ Forall (λ c, c ∈ columns d) cs → recorrer (getitem d) cs = Raise KeyError.
Proof.
  intros Hno. apply recorrer_Raise.
  - intros c _. unfold getitem. destruct (obtener c (datos d)); eauto.
  - apply not_Forall_Exists in Hno; [|apply _].
    apply list.Exists_exists in Hno as (c & Hc & Hno). exists c. split; [done|].
    unfold getitem. destruct (obtener c (datos d)) eqn:Hs; [|done].
    destruct Hno. apply elem_of_columns. by rewrite Hs.
Qed.

Lemma recorrer_getitem_Ok d cs :
  Forall (λ c, c ∈ columns d) cs → ∃ cols, recorrer (getitem d) cs = Ok cols.
Proof.
  induction 1 as [|c cs [s Hs]%elem_of_columns _ [cols IH]]; [by eexists|].
  rewrite recorrer_cons.
  assert (getitem d c = Ok s) as -> by (unfold getitem; by rewrite Hs).
  rewrite IH. by eexists.
Qed.

(** X11: when the frame lacks the target or one of the grouping columns,
    [elegir_imputacion] raises [KeyError] and changes nothing. *)
Theorem elegir_imputacion_sin_columna (h : almacen) df d columna agrupacion u :
  h !! df = Some d → agrupacion ≠ [] →
  ¬ Forall (λ c, c ∈ columns d) (columna :: agrupacion) →
  elegir_imputacion df columna agrupacion u h = (Raise KeyError, h).
Proof.
  intros Hdf Hne Hno.
  unfold elegir_imputacion, mbind, M_bind, leer, lift, setitem, mret, M_ret.
  rewrite Hdf. unfold groupby. destruct agrupacion as [|c0 cs]; [done|].
  destruct (decide (Forall (λ c, c ∈ columns d) (c0 :: cs))) as [Hall|Hall].
  - destruct (recorrer_getitem_Ok _ _ Hall) as [cols ->]. simpl.
    unfold getitem. destruct (obtener columna (datos d)) eqn:Hs; [|done].
    destruct Hno. constructor; [|done]. apply elem_of_columns. by rewrite Hs.
  - by rewrite recorrer_getitem_KeyError.
Qed.

Lemma elegir_imputacion_sin_columna_witness :
  elegir_imputacion 0%nat "x" ["g"; "pais"] (Qc_of_Z 60) [ej_grupos]
  = (Raise KeyError, [ej_grupos]).
Proof.
  apply (elegir_imputacion_sin_columna [ej_grupos] 0%nat ej_grupos);
    [reflexivity|done|].
  intros H. apply Forall_cons_1 in H as [_ H]. apply Forall_cons_1 in H as [_ H].
  apply Forall_cons_1 in H as [H _]. vm_compute in H.
  repeat (apply elem_of_cons in H as [H|H]; [done|]). by apply elem_of_nil in H.
Defined.
(** ** [estandarizar_nombres_columnas] *)

Lemma zip_fmap_fst_snd {A B C} (f : A → C) (l : list (A * B)) :
  zip (f <$> l.*1) l.*2 = prod_map f id <$> l.
Proof. induction l as [|[a b] l IH]; [done|]. simpl. f_equal. apply IH. Qed.

(** The call in closed form: the assignment of the names never fails. *)
Lemma estandarizar_nombres_columnas_spec (h : almacen) df d :
  h !! df = Some d →
  estandarizar_nombres_columnas df h = (Ok df, <[df := estandarizado d]> h).
Proof.
  intros Hdf. unfold estandarizar_nombres_columnas. paso.
  unfold mbind, M_bind, set_columns. rewrite Hdf.
  rewrite decide_True by (unfold columns; by rewrite !length_fmap).
  unfold estandarizado, columns, estandar.
  by rewrite <-list_fmap_compose, zip_fmap_fst_snd.
Qed.

Lemma estandar_caracter a :
  let b := if decide (tolower a = " "%char) then "_"%char else tolower a in
  b ≠ " "%char ∧ ¬ (65 ≤ nat_of_ascii b ≤ 90)%nat
  ∧ (if decide (tolower b = " "%char) then "_"%char else tolower b) = b.
Proof.
  destruct a as [[] [] [] [] [] [] [] []]; vm_compute;
    (split; [congruence|split; [lia|reflexivity]]).
Qed.

Lemma estandar_caracteres c :
  list_ascii_of_string (estandar c)
  = (λ a, if decide (tolower a = " "%char) then "_"%char else tolower a)
      <$> list_ascii_of_string c.
Proof.
  unfold estandar, replace, lower.
  rewrite !list_ascii_of_string_of_list_ascii. by rewrite <-list_fmap_compose.
Qed.

Lemma estandar_idem c : estandar (estandar c) = estandar c.
Proof.
  rewrite <-(string_of_list_ascii_of_string (estandar (estandar c))).
  rewrite <-(string_of_list_ascii_of_string (estandar c)) at 2.
  f_equal. rewrite (estandar_caracteres (estandar c)), estandar_caracteres.
  rewrite <-list_fmap_compose. apply list_fmap_ext. intros _ a _. simpl.
  apply estandar_caracter.
Qed.

Lemma estandarizado_idem d : estandarizado (estandarizado d) = estandarizado d.
Proof.
  unfold estandarizado. simpl. f_equal. rewrite <-list_fmap_compose.
  apply list_fmap_ext. intros _ [c s] _. unfold prod_map. simpl.
  by rewrite estandar_idem.
Qed.


(** X12: [estandarizar_nombres_columnas] returns the frame it was given,
    renamed in place: the row labels and the values of the columns, in
    their order, are as they were, and no name has a space or a capital
    letter [A-Z] left in it. *)
Theorem estandarizar_nombres_columnas_nombres (h : almacen) df d :
  h !! df = Some d →
  ∃ d',
    estandarizar_nombres_columnas df h = (Ok df, <[df := d']> h)
    ∧ index d' = index d
    ∧ (datos d').*2 = (datos d).*2
    ∧ bien_formado d' = bien_formado d
    ∧ ∀ c a, c ∈ columns d' → a ∈ list_ascii_of_string c →
        a ≠ " "%char ∧ ¬ (65 ≤ nat_of_ascii a ≤ 90)%nat.
Proof.
  intros Hdf. exists (estandarizado d).
  split; [by apply estandarizar_nombres_columnas_spec|]. split; [done|].
  assert ((datos (estandarizado d)).*2 = (datos d).*2) as Hdatos.
  { simpl. rewrite <-list_fmap_compose. apply list_fmap_ext.
    by intros _ [] _. }
  split; [done|]. split.
  - clear Hdatos. unfold bien_formado. simpl.
    induction (datos d) as [|[c s] l IH]; [done|].
    rewrite fmap_cons. simpl. by rewrite IH.
  - intros c a Hc Ha. unfold columns in Hc. simpl in Hc.
    rewrite <-list_fmap_compose in Hc.
    apply list_elem_of_fmap in Hc as ([c0 s0] & -> & _). simpl in Ha.
    rewrite estandar_caracteres in Ha.
    apply list_elem_of_fmap in Ha as (a0 & -> & _).
    pose proof (estandar_caracter a0) as (H1 & H2 & _). done.
Qed.

Lemma estandarizar_nombres_columnas_nombres_witness :
  ∃ d',
    estandarizar_nombres_columnas 0%nat [ej_nombres]
    = (Ok 0%nat, <[0%nat := d']> [ej_nombres])
    ∧ index d' = index ej_nombres
    ∧ (datos d').*2 = (datos ej_nombres).*2
    ∧ bien_formado d' = bien_formado ej_nombres
    ∧ ∀ c a, c ∈ columns d' → a ∈ list_ascii_of_string c →
        a ≠ " "%char ∧ ¬ (65 ≤ nat_of_ascii a ≤ 90)%nat.
Proof.
  apply (estandarizar_nombres_columnas_nombres [ej_nombres] 0%nat ej_nombres).
  reflexivity.
Defined.

(** The names of the example. *)
Example estandarizar_nombres_columnas_ej :
  ∃ d', estandarizar_nombres_columnas 0%nat [ej_nombres] = (Ok 0%nat, [d'])
        ∧ columns d' = ["show_id"; "date_added"; "release_year"].
Proof. eexists. split; reflexivity. Qed.

(** X13: standardising the names twice is standardising them once: a
    second call leaves the store as the first one left it. *)
Theorem estandarizar_nombres_columnas_dos_veces (h h1 : almacen) df d :
  h !! df = Some d →
  estandarizar_nombres_columnas df h = (Ok df, h1) →
  estandarizar_nombres_columnas df h1 = (Ok df, h1).
Proof.
  intros Hdf Hrun.
  rewrite (estandarizar_nombres_columnas_spec _ _ _ Hdf) in Hrun.
  injection Hrun as <-.
  assert (df < length h)%nat as Hlt by (by eapply lookup_lt_Some).
  rewrite (estandarizar_nombres_columnas_spec _ _ (estandarizado d))
    by (by apply list_lookup_insert_eq).
  by rewrite estandarizado_idem, list_insert_insert_eq.
Qed.

Lemma estandarizar_nombres_columnas_dos_veces_witness :
  estandarizar_nombres_columnas 0%nat [estandarizado ej_nombres]
  = (Ok 0%nat, [estandarizado ej_nombres]).
Proof.
  apply (estandarizar_nombres_columnas_dos_veces [ej_nombres] _ 0%nat
           ej_nombres); reflexivity.
Defined.



(** Two names that differ only in capitals, or in a space against an
    underscore, become one name: the frame then has two columns of that
    name, and the name finds the first of them. *)
Example estandarizar_nombres_columnas_choque :
  let d := mkDF [0%nat] [("Title", SNum [num 1]); ("title", SNum [num 2])] in
  ∃ d', estandarizar_nombres_columnas 0%nat [d] = (Ok 0%nat, [d'])
        ∧ columns d' = ["title"; "title"]
        ∧ getitem d' "title" = Ok (SNum [num 1]).
Proof. eexists. repeat split; reflexivity. Qed.

(** ** Loops over columns: the order of the list, running them again *)

Lemma poner_comm c1 c2 a b (l : list (string * Series)) :
  c1 ≠ c2 → is_Some (obtener c1 l) → is_Some (obtener c2 l) →
  poner c1 a (poner c2 b l) = poner c2 b (poner c1 a l).
Proof.
  intros Hne. induction l as [|[c0 s0] l IH]; [by intros [? ?]|].
  rewrite !obtener_cons, !poner_cons.
  destruct (decide (c0 = c1)) as [H1|H1], (decide (c0 = c2)) as [H2|H2];
    intros Hc1 Hc2.
  - congruence.
  - subst c0. rewrite !poner_cons. by repeat case_decide.
  - subst c0. rewrite !poner_cons. by repeat case_decide.
  - rewrite !poner_cons, !decide_False by done. f_equal. by apply IH.
Qed.

Lemma aplicar_comm f c1 c2 d :
  aplicar f c1 (aplicar f c2 d) = aplicar f c2 (aplicar f c1 d).
Proof.
  destruct (decide (c1 = c2)) as [->|Hne]; [done|].
  unfold aplicar at 1 3. rewrite !obtener_aplicar.
  rewrite (decide_False (P := c1 = c2)), (decide_False (P := c2 = c1)) by done.
  destruct (obtener c1 (datos d)) as [s1|] eqn:H1,
           (obtener c2 (datos d)) as [s2|] eqn:H2; unfold aplicar.
  - rewrite H1, H2. unfold con_columna. simpl. f_equal.
    apply poner_comm; [done|by rewrite H1|by rewrite H2].
  - by rewrite H1, H2.
  - by rewrite H1, H2.
  - by rewrite H1, H2.
Qed.

Lemma foldl_aplicar_comm f c l d :
  foldl (λ d c, aplicar f c d) (aplicar f c d) l
  = aplicar f c (foldl (λ d c, aplicar f c d) d l).
Proof.
  revert d. induction l as [|x l IH]; intros d; [done|]. cbn [foldl].
  by rewrite aplicar_comm, IH.
Qed.

Lemma foldl_aplicar_foldl f l1 l2 d :
  foldl (λ d c, aplicar f c d) (foldl (λ d c, aplicar f c d) d l2) l1
  = foldl (λ d c, aplicar f c d) (foldl (λ d c, aplicar f c d) d l1) l2.
Proof.
  revert d. induction l1 as [|c l1 IH]; intros d; [done|]. cbn [foldl].
  by rewrite <-foldl_aplicar_comm, IH.
Qed.

Lemma foldl_aplicar_subseteq f l1 l2 d :
  (∀ c s, f c (f c s) = f c s) → l1 ⊆ l2 →
  foldl (λ d c, aplicar f c d) (foldl (λ d c, aplicar f c d) d l2) l1
  = foldl (λ d c, aplicar f c d) d l2.
Proof.
  intros Hf. set (t := foldl (λ d c, aplicar f c d) d l2).
  induction l1 as [|c l1 IH]; intros Hsub; [done|]. cbn [foldl].
  assert (aplicar f c t = t) as ->.
  { unfold aplicar. destruct (obtener c (datos t)) as [s'|] eqn:Hs'; [|done].
    apply con_columna_mismo. rewrite Hs'. f_equal.
    unfold t in Hs'. rewrite obtener_foldl_aplicar in Hs' by apply Hf.
    rewrite decide_True in Hs' by (apply Hsub; left).
    destruct (obtener c (datos d)) as [s|]; [|done].
    injection Hs' as <-. symmetry. apply Hf. }
  apply IH. intros x Hx. apply Hsub. by right.
Qed.

(** The frame a loop over columns leaves depends on which columns are
    listed, not on their order or on how often one is listed. *)
Lemma foldl_aplicar_conjunto f l1 l2 d :
  (∀ c s, f c (f c s) = f c s) → (∀ c, c ∈ l1 ↔ c ∈ l2) →
  foldl (λ d c, aplicar f c d) d l1 = foldl (λ d c, aplicar f c d) d l2.
Proof.
  intros Hf Heq.
  rewrite <-(foldl_aplicar_subseteq f l2 l1 d Hf) by (intros c; apply Heq).
  rewrite foldl_aplicar_foldl.
  apply foldl_aplicar_subseteq; [done|]. intros c. apply Heq.
Qed.

(** Once every listed column has been rewritten, rewriting the listed
    columns again changes nothing. *)
Lemma foldl_aplicar_idem f l d :
  (∀ c s, f c (f c s) = f c s) →
  foldl (λ d c, aplicar f c d) (foldl (λ d c, aplicar f c d) d l) l
  = foldl (λ d c, aplicar f c d) d l.
Proof. intros Hf. by apply foldl_aplicar_subseteq. Qed.

Lemma bien_formado_aplicar f c d :
  (∀ s, length (celdas (f c s)) = length (celdas s)) →
  bien_formado d = true → bien_formado (aplicar f c d) = true.
Proof.
  intros Hf Hwf. unfold aplicar.
  destruct (obtener c (datos d)) as [s|] eqn:Hs; [|done].
  apply bien_formado_con_columna; [done|]. rewrite Hf.
  by eapply bien_formado_length.
Qed.

Lemma bien_formado_foldl_aplicar f l d :
  (∀ c s, length (celdas (f c s)) = length (celdas s)) →
  bien_formado d = true →
  bien_formado (foldl (λ d c, aplicar f c d) d l) = true.
Proof.
  intros Hf. revert d. induction l as [|c l IH]; intros d Hwf; [done|].
  cbn [foldl]. apply IH. by apply bien_formado_aplicar.
Qed.

(** The nulls of every column, column by column, after a column was
    rewritten by a function that keeps the nulls where they are. *)
Lemma isnull_aplicar f c d :
  (∀ s, isnull (f c s) = isnull s) →
  (λ p, (p.1, isnull p.2)) <$> datos (aplicar f c d)
  = (λ p, (p.1, isnull p.2)) <$> datos d.
Proof.
  intros Hf. unfold aplicar.
  destruct (obtener c (datos d)) as [s|] eqn:Hs; [|done]. simpl.
  revert Hs. induction (datos d) as [|[c0 s0] l IH]; [done|].
  rewrite obtener_cons, poner_cons.
  destruct (decide (c0 = c)) as [->|Hne].
  - intros [= ->]. rewrite !fmap_cons. simpl. by rewrite Hf.
  - intros Hs. rewrite !fmap_cons. by rewrite IH.
Qed.

Lemma isnull_foldl_aplicar f l d :
  (∀ c s, isnull (f c s) = isnull s) →
  (λ p, (p.1, isnull p.2)) <$> datos (foldl (λ d c, aplicar f c d) d l)
  = (λ p, (p.1, isnull p.2)) <$> datos d.
Proof.
  intros Hf. revert d. induction l as [|c l IH]; intros d; [done|].
  cbn [foldl]. rewrite IH. by apply isnull_aplicar.
Qed.

(** ** [limpiar_texto]: running it again, and the nulls *)

Lemma isnull_limpia_serie conservar c s :
  isnull (limpia_serie conservar c s) = isnull s.
Proof.
  destruct s as [v|v|v]; [done| |done]. unfold isnull. simpl.
  rewrite <-!list_fmap_compose. apply list_fmap_ext. by intros _ [t|] _.
Qed.

Lemma celdas_isnull_length s : length (isnull s) = length (celdas s).
Proof. unfold isnull. by rewrite length_fmap. Qed.

(** X15: [limpiar_texto] is idempotent: a second call with the same
    arguments leaves the store as the first call left it. *)
Theorem limpiar_texto_dos_veces (h h1 : almacen) df d columnas
    conservar_mayusculas :
  h !! df = Some d →
  limpiar_texto df columnas conservar_mayusculas h = (Ok df, h1) →
  limpiar_texto df columnas conservar_mayusculas h1 = (Ok df, h1).
Proof.
  intros Hdf Hrun. rewrite (limpiar_texto_spec _ _ _ _ _ Hdf) in Hrun.
  injection Hrun as <-.
  assert (df < length h)%nat as Hlt by (by eapply lookup_lt_Some).
  rewrite (limpiar_texto_spec _ _ _ _ _ (list_lookup_insert_eq _ _ _ Hlt)).
  rewrite foldl_aplicar_idem by (intros; apply limpia_serie_idem).
  by rewrite list_insert_insert_eq.
Qed.

Lemma limpiar_texto_dos_veces_witness :
  let h1 := (limpiar_texto 0%nat ["titulo"; "pais"] ["pais"] [ej_texto]).2 in
  limpiar_texto 0%nat ["titulo"; "pais"] ["pais"] h1 = (Ok 0%nat, h1).
Proof.
  apply (limpiar_texto_dos_veces [ej_texto] _ 0%nat ej_texto); reflexivity.
Defined.

Lemma resumen_nulos_isnull (h1 h2 : almacen) df d1 d2 :
  h1 !! df = Some d1 → h2 !! df = Some d2 →
  index d1 = index d2 →
  (λ p, (p.1, isnull p.2)) <$> datos d1 = (λ p, (p.1, isnull p.2)) <$> datos d2 →
  (resumen_nulos df h1).1 = (resumen_nulos df h2).1.
Proof.
  intros H1 H2 Hidx Hnul. unfold resumen_nulos.
  rewrite (bind_Ok _ _ _ _ _ (leer_Ok _ _ _ H1)).
  rewrite (bind_Ok _ _ _ _ _ (leer_Ok _ _ _ H2)).
  unfold mret, M_ret. simpl. rewrite Hidx. do 3 f_equal.
  assert ((λ p : string * Series, (p.1, contar_nulos p.2))
          = (λ q : string * list bool, (q.1, length (filter (λ b, b = true) q.2)))
            ∘ (λ p : string * Series, (p.1, isnull p.2))) as -> by done.
  by rewrite !list_fmap_compose, Hnul.
Qed.

(** X16: [limpiar_texto] moves no null: the summary [resumen_nulos]
    gives of the frame after the call is the one it gives before, and the
    frame still has one value per row in every column. *)
Theorem limpiar_texto_nulos (h : almacen) df d columnas conservar_mayusculas :
  h !! df = Some d → bien_formado d = true →
  ∃ h1 d1,
    limpiar_texto df columnas conservar_mayusculas h = (Ok df, h1)
    ∧ h1 !! df = Some d1
    ∧ bien_formado d1 = true
    ∧ (resumen_nulos df h1).1 = (resumen_nulos df h).1.
Proof.
  intros Hdf Hwf.
  assert (df < length h)%nat as Hlt by (by eapply lookup_lt_Some).
  eexists _, _. split; [by apply limpiar_texto_spec|].
  split; [by apply list_lookup_insert_eq|]. split.
  - apply bien_formado_foldl_aplicar; [|done].
    intros c s. by rewrite <-!celdas_isnull_length, isnull_limpia_serie.
  - eapply resumen_nulos_isnull; [by apply list_lookup_insert_eq|done| |].
    + apply foldl_aplicar_index.
    + apply isnull_foldl_aplicar. intros. apply isnull_limpia_serie.
Qed.

Lemma limpiar_texto_nulos_witness :
  ∃ h1 d1,
    limpiar_texto 0%nat ["titulo"; "pais"] ["pais"] [ej_texto] = (Ok 0%nat, h1)
    ∧ h1 !! 0%nat = Some d1
    ∧ bien_formado d1 = true
    ∧ (resumen_nulos 0%nat h1).1 = (resumen_nulos 0%nat [ej_texto]).1.
Proof.
  apply (limpiar_texto_nulos [ej_texto] 0%nat ej_texto); reflexivity.
Defined.

(** X17: the order of the listed columns, and a column listed twice, make
    no difference to [limpiar_texto]: two lists that name the same columns
    leave the same store. *)
Theorem limpiar_texto_orden (h : almacen) df d columnas1 columnas2
    conservar_mayusculas :
  h !! df = Some d → (∀ c, c ∈ columnas1 ↔ c ∈ columnas2) →
  limpiar_texto df columnas1 conservar_mayusculas h
  = limpiar_texto df columnas2 conservar_mayusculas h.
Proof.
  intros Hdf Heq. rewrite !(limpiar_texto_spec _ _ _ _ _ Hdf).
  by rewrite (foldl_aplicar_conjunto _ columnas1 columnas2)
    by (done || intros; apply limpia_serie_idem).
Qed.

Lemma limpiar_texto_orden_witness :
  limpiar_texto 0%nat ["titulo"; "pais"] ["pais"] [ej_texto]
  = limpiar_texto 0%nat ["pais"; "titulo"; "pais"] ["pais"] [ej_texto].
Proof.
  apply (limpiar_texto_orden [ej_texto] 0%nat ej_texto); [reflexivity|].
  intros c. rewrite !elem_of_cons, !elem_of_nil. tauto.
Defined.

(** ** [convertir_a_fecha]: a missing column, running it again *)

Lemma para_app {A} (l1 l2 : list A) (cuerpo : A → M unit) (h : almacen) :
  para (l1 ++ l2) cuerpo h
  = match para l1 cuerpo h with
    | (Ok _, h1) => para l2 cuerpo h1
    | (Raise e, h1) => (Raise e, h1)
    end.
Proof.
  revert h. induction l1 as [|x l1 IH]; intros h; [done|].
  cbn [app para]. unfold mbind, M_bind.
  destruct (cuerpo x h) as [[[]|e] h0]; [apply IH|done].
Qed.

Lemma length_celdas_a_fecha parse_texto parse_numero s :
  length (celdas (a_fecha parse_texto parse_numero s)) = length (celdas s).
Proof. destruct s; simpl; by rewrite !length_fmap. Qed.

(** X18: [convertir_a_fecha] stops with [KeyError] at the first listed
    column that the frame does not have, and the columns listed before it
    stay converted: the frame is left as a call with only those columns
    leaves it. *)
Theorem convertir_a_fecha_sin_columna parse_texto parse_numero (h : almacen)
    df d previas c resto :
  h !! df = Some d →
  Forall (λ c, c ∈ columns d) previas → c ∉ columns d →
  ∃ h1,
    convertir_a_fecha parse_texto parse_numero df previas h = (Ok df, h1)
    ∧ convertir_a_fecha parse_texto parse_numero df (previas ++ c :: resto) h
      = (Raise KeyError, h1).
Proof.
  intros Hdf Hprev Hc.
  pose proof (convertir_a_fecha_spec parse_texto parse_numero _ _ _ _ Hdf Hprev)
    as Hrun.
  eexists. split; [exact Hrun|].
  unfold convertir_a_fecha in *. unfold mbind at 1, M_bind at 1 in Hrun.
  unfold mbind at 1, M_bind at 1. rewrite para_app.
  destruct (para previas _ h) as [[[]|e] h1]; [|done].
  injection Hrun as ->. cbn [para].
  set (d1 := foldl _ d previas).
  assert (df < length h)%nat as Hlt by (by eapply lookup_lt_Some).
  unfold mbind at 1, M_bind at 1.
  assert (convertir_columna parse_texto parse_numero df c (<[df := d1]> h)
          = (Raise KeyError, <[df := d1]> h)) as ->; [|done].
  unfold convertir_columna, leer_columna.
  rewrite (bind_Raise _ _ _ (<[df := d1]> h) KeyError); [done|].
  rewrite (bind_Ok _ _ _ _ _ (leer_Ok _ _ _ (list_lookup_insert_eq _ _ _ Hlt))).
  unfold lift, getitem. destruct (obtener c (datos d1)) eqn:Hs; [|done].
  destruct Hc. rewrite <-(foldl_aplicar_columns
    (λ _, a_fecha parse_texto parse_numero) previas d).
  apply elem_of_columns. fold d1. by rewrite Hs.
Qed.

Lemma convertir_a_fecha_sin_columna_witness :
  ∃ h1,
    convertir_a_fecha parse_ej (λ _, None) 0%nat ["alta"] [ej_fechas]
    = (Ok 0%nat, h1)
    ∧ convertir_a_fecha parse_ej (λ _, None) 0%nat (["alta"] ++ "baja" :: ["anio"])
        [ej_fechas]
      = (Raise KeyError, h1).
Proof.
  apply (convertir_a_fecha_sin_columna parse_ej (λ _, None) [ej_fechas] 0%nat
           ej_fechas).
  - reflexivity.
  - repeat constructor.
  - vm_compute. intros H.
    repeat (apply elem_of_cons in H as [H|H]; [done|]). by apply elem_of_nil in H.
Defined.

(** X19: [convertir_a_fecha] changes the listed columns only: the row
    labels, the names and the order of the columns and every column that
    is not listed are as they were, and the frame still has one value per
    row in every column. *)
Theorem convertir_a_fecha_resto parse_texto parse_numero (h : almacen) df d
    columnas :
  h !! df = Some d → bien_formado d = true →
  Forall (λ c, c ∈ columns d) columnas →
  ∃ d',
    convertir_a_fecha parse_texto parse_numero df columnas h
    = (Ok df, <[df := d']> h)
    ∧ index d' = index d
    ∧ columns d' = columns d
    ∧ bien_formado d' = true
    ∧ ∀ c, c ∉ columnas → obtener c (datos d') = obtener c (datos d).
Proof.
  intros Hdf Hwf Hcols. eexists.
  split; [by apply convertir_a_fecha_spec|].
  split; [apply foldl_aplicar_index|]. split; [apply foldl_aplicar_columns|].
  split.
  - apply bien_formado_foldl_aplicar; [|done].
    intros _ s. apply length_celdas_a_fecha.
  - intros c Hc. rewrite obtener_foldl_aplicar by apply a_fecha_idem.
    by rewrite decide_False.
Qed.

Lemma convertir_a_fecha_resto_witness :
  ∃ d',
    convertir_a_fecha parse_ej (λ _, None) 0%nat ["alta"] [ej_fechas]
    = (Ok 0%nat, <[0%nat := d']> [ej_fechas])
    ∧ index d' = index ej_fechas
    ∧ columns d' = columns ej_fechas
    ∧ bien_formado d' = true
    ∧ ∀ c, c ∉ ["alta"] → obtener c (datos d') = obtener c (datos ej_fechas).
Proof.
  apply (convertir_a_fecha_resto parse_ej (λ _, None) [ej_fechas] 0%nat
           ej_fechas); [reflexivity..|repeat constructor].
Defined.

(** X20: [convertir_a_fecha] is idempotent: a column that holds dates is
    converted to itself, so that a second call with the same columns
    returns as well and leaves the store as the first call left it. *)
Theorem convertir_a_fecha_dos_veces parse_texto parse_numero (h : almacen)
    df d columnas :
  h !! df = Some d → Forall (λ c, c ∈ columns d) columnas →
  ∃ h1,
    convertir_a_fecha parse_texto parse_numero df columnas h = (Ok df, h1)
    ∧ convertir_a_fecha parse_texto parse_numero df columnas h1 = (Ok df, h1).
Proof.
  intros Hdf Hcols.
  assert (df < length h)%nat as Hlt by (by eapply lookup_lt_Some).
  eexists. split; [by apply convertir_a_fecha_spec|].
  rewrite (convertir_a_fecha_spec _ _ _ _ _ _
             (list_lookup_insert_eq _ _ _ Hlt)).
  - rewrite foldl_aplicar_idem by (intros; apply a_fecha_idem).
    by rewrite list_insert_insert_eq.
  - by rewrite foldl_aplicar_columns.
Qed.

Lemma convertir_a_fecha_dos_veces_witness :
  ∃ h1,
    convertir_a_fecha parse_ej (λ _, None) 0%nat ["alta"; "anio"] [ej_fechas]
    = (Ok 0%nat, h1)
    ∧ convertir_a_fecha parse_ej (λ _, None) 0%nat ["alta"; "anio"] h1
      = (Ok 0%nat, h1).
Proof.
  apply (convertir_a_fecha_dos_veces parse_ej (λ _, None) [ej_fechas] 0%nat
           ej_fechas); [reflexivity|repeat constructor].
Defined.

(** X21: the order of the listed columns, and a column listed twice, make
    no difference to [convertir_a_fecha] on a frame that has them all:
    two lists that name the same columns leave the same store. *)
Theorem convertir_a_fecha_orden parse_texto parse_numero (h : almacen) df d
    columnas1 columnas2 :
  h !! df = Some d → Forall (λ c, c ∈ columns d) columnas1 →
  (∀ c, c ∈ columnas1 ↔ c ∈ columnas2) →
  convertir_a_fecha parse_texto parse_numero df columnas1 h
  = convertir_a_fecha parse_texto parse_numero df columnas2 h.
Proof.
  intros Hdf Hcols Heq.
  assert (Forall (λ c, c ∈ columns d) columnas2) as Hcols2.
  { rewrite list.Forall_forall in Hcols. apply list.Forall_forall.
    intros c Hc. by apply Hcols, Heq. }
  rewrite !(convertir_a_fecha_spec _ _ _ _ _ _ Hdf) by done.
  by rewrite (foldl_aplicar_conjunto _ columnas1 columnas2)
    by (done || intros; apply a_fecha_idem).
Qed.

Lemma convertir_a_fecha_orden_witness :
  convertir_a_fecha parse_ej (λ _, None) 0%nat ["alta"; "anio"] [ej_fechas]
  = convertir_a_fecha parse_ej (λ _, None) 0%nat ["anio"; "alta"; "anio"]
      [ej_fechas].
Proof.
  apply (convertir_a_fecha_orden parse_ej (λ _, None) [ej_fechas] 0%nat
           ej_fechas); [reflexivity|repeat constructor|].
  intros c. rewrite !elem_of_cons, !elem_of_nil. tauto.
Defined.

(** ** [resumen_nulos]: the range of the figures *)

Lemma dividir_rango n m x :
  (n ≤ m)%nat → dividir n m = Some x → 0 ≤ x ∧ x ≤ 1.
Proof.
  intros Hn. unfold dividir. destruct m as [|m]; [done|].
  intros [= <-]. apply cociente_rango; lia.
Qed.

Lemma bien_formado_elem_of d c s :
  bien_formado d = true → (c, s) ∈ datos d →
  length (celdas s) = length (index d).
Proof.
  unfold bien_formado. rewrite forallb_forall. intros Hwf Hin.
  apply list_elem_of_In, Hwf in Hin. by apply Nat.eqb_eq in Hin.
Qed.

Lemma contar_nulos_le s : (contar_nulos s ≤ length (celdas s))%nat.
Proof.
  unfold contar_nulos. rewrite <-celdas_isnull_length. apply length_filter.
Qed.

(** X22: the figures of [resumen_nulos].  The summary has one row per
    column, named after it.  The count of nulls of a column is at most the
    number of rows; on a frame with rows its percentage is a number
    between 0 and 100, and on a frame without rows it is NaN. *)
Theorem resumen_nulos_rango (h : almacen) df d :
  h !! df = Some d → bien_formado d = true →
  ∃ r,
    resumen_nulos df h = (Ok r, h)
    ∧ nombre <$> r ≡ₚ columns d
    ∧ ∀ f, f ∈ r →
        (cantidad_nulos f ≤ length (index d))%nat
        ∧ match porcentaje_nulos f with
          | Some p => index d ≠ [] ∧ 0 ≤ p ∧ p ≤ Qc_of_Z 100
          | None => index d = []
          end.
Proof.
  intros Hdf Hwf. unfold resumen_nulos. eexists. split; [|split].
  - paso. reflexivity.
  - unfold sort_values. rewrite merge_sort_Permutation.
    rewrite <-!list_fmap_compose. done.
  - intros f Hf. unfold sort_values in Hf.
    rewrite merge_sort_Permutation in Hf.
    rewrite <-list_fmap_compose in Hf.
    apply list_elem_of_fmap in Hf as ([c s] & -> & Hin). simpl.
    pose proof (bien_formado_elem_of _ _ _ Hwf Hin) as Hlen.
    pose proof (contar_nulos_le s) as Hle. rewrite Hlen in Hle.
    split; [done|].
    destruct (dividir (contar_nulos s) (length (index d))) as [x|] eqn:Hx;
      simpl.
    + destruct (dividir_rango _ _ _ Hle Hx) as [H0 H1].
      assert (0 ≤ Qc_of_Z 100) as H100
        by (rewrite <-Z2Qc_inj_0; by apply (proj1 (Z2Qc_inj_le _ _))).
      split; [|split].
      * intros Hnil. by rewrite Hnil in Hx.
      * by apply Qcmult_nonneg_nonneg.
      * rewrite <-(Qcmult_1_l (Qc_of_Z 100)) at 2.
        by apply Qcmult_le_mono_nonneg_r.
    + unfold dividir in Hx. by destruct (index d).
Qed.

Lemma resumen_nulos_rango_witness :
  ∃ r,
    resumen_nulos 0%nat [ej_texto] = (Ok r, [ej_texto])
    ∧ nombre <$> r ≡ₚ columns ej_texto
    ∧ ∀ f, f ∈ r →
        (cantidad_nulos f ≤ length (index ej_texto))%nat
        ∧ match porcentaje_nulos f with
          | Some p => index ej_texto ≠ [] ∧ 0 ≤ p ∧ p ≤ Qc_of_Z 100
          | None => index ej_texto = []
          end.
Proof. apply (resumen_nulos_rango [ej_texto] 0%nat ej_texto); reflexivity. Defined.

(** ** [evaluar_fila]: outcomes *)

Lemma columns_filas d m : columns (filas d m) = columns d.
Proof.
  unfold columns, filas. simpl. rewrite <-list_fmap_compose.
  apply list_fmap_ext. by intros _ [] _.
Qed.

Lemma getitem_KeyError d c : c ∉ columns d → getitem d c = Raise KeyError.
Proof.
  intros Hc. unfold getitem. destruct (obtener c (datos d)) eqn:Hs; [|done].
  destruct Hc. apply elem_of_columns. by rewrite Hs.
Qed.

Lemma getitem_is_Ok d c : c ∈ columns d → ∃ s, getitem d c = Ok s.
Proof.
  intros [s Hs]%elem_of_columns. exists s. unfold getitem. by rewrite Hs.
Qed.

(** The ways a call can go: it stops at the target column before
    anything is added to the store, it stops at the key columns with the
    selection and its copy added, or it returns with four frames added. *)
Lemma evaluar_fila_casos (h : almacen) df d columna_nula columnas_clave umbral :
  h !! df = Some d →
  let r := evaluar_fila df columna_nula columnas_clave umbral h in
  ((columna_nula ∉ columns d) ∧ r = (Raise KeyError, h))
  ∨ (∃ s, getitem d columna_nula = Ok s
       ∧ ¬ Forall (λ c, c ∈ columns d) columnas_clave
       ∧ r = (Raise KeyError, h ++ [filas d (isnull s); filas d (isnull s)]))
  ∨ (∃ s d2 d3 d4, getitem d columna_nula = Ok s
       ∧ Forall (λ c, c ∈ columns d) columnas_clave
       ∧ r = (Ok (length h + 3)%nat,
              h ++ [filas d (isnull s); d2; d3; d4])).
Proof.
  intros Hdf r. subst r. unfold evaluar_fila. paso.
  destruct (decide (columna_nula ∈ columns d)) as [Hin|Hin].
  2: { left. split; [done|]. apply bind_Raise. unfold lift.
       by rewrite getitem_KeyError. }
  destruct (getitem_is_Ok _ _ Hin) as [s Hs].
  right. rewrite (bind_Ok _ _ h h s) by (unfold lift; by rewrite Hs).
  set (d1 := filas d (isnull s)). paso.
  rewrite (bind_Ok _ _ _ _ _ (leer_Ok _ _ _ (lookup_ultimo h d1))).
  paso.
  rewrite (bind_Ok _ _ _ _ _ (leer_Ok _ _ _ (lookup_ultimo (h ++ [d1]) d1))).
  destruct (decide (Forall (λ c, c ∈ columns d) columnas_clave)) as [Hall|Hall].
  - right. exists s.
    destruct (recorrer_getitem_Ok d1 columnas_clave) as [cols Hcols].
    { unfold d1. by rewrite columns_filas. }
    rewrite (bind_Ok _ _ _ ((h ++ [d1]) ++ [d1]) cols)
      by (unfold lift; by rewrite Hcols).
    set (p := SNum _).
    rewrite (bind_Ok _ _ _ _ _
               (setitem_Ok _ _ _ proporcion_datos_importantes p
                  (lookup_ultimo (h ++ [d1]) d1))).
    rewrite insertar_ultimo.
    set (d2 := con_columna d1 proporcion_datos_importantes p).
    rewrite (bind_Ok _ _ _ _ _ (leer_Ok _ _ _ (lookup_ultimo (h ++ [d1]) d2))).
    rewrite (bind_Ok _ _ _ ((h ++ [d1]) ++ [d2]) p).
    2: { unfold lift, getitem, d2. simpl. by rewrite obtener_poner_eq. }
    destruct (menor p umbral) as [mask|] eqn:Hmask; [|done].
    rewrite (bind_Ok _ _ _ ((h ++ [d1]) ++ [d2]) mask) by done.
    paso.
    rewrite (bind_Ok _ _ _ _ _ (leer_Ok _ _ _ (lookup_ultimo _ _))).
    rewrite nuevo_Ok. eexists d2, _, _. repeat (split; [done|]). f_equal.
    + f_equal. rewrite !length_app. simpl. lia.
    + by rewrite <-!app_assoc.
  - left. exists s. repeat (split; [done|]).
    rewrite (bind_Raise _ _ _ ((h ++ [d1]) ++ [d1]) KeyError).
    + by rewrite <-app_assoc.
    + unfold lift. rewrite recorrer_getitem_KeyError; [done|].
      unfold d1. by rewrite columns_filas.
Qed.

(** X23: [evaluar_fila] never changes a frame that exists: whether it
    returns or raises, the store it leaves is the store it was given with
    new frames after it. *)
Theorem evaluar_fila_no_modifica (h : almacen) df columna_nula columnas_clave
    umbral :
  h `prefix_of` (evaluar_fila df columna_nula columnas_clave umbral h).2.
Proof.
  destruct (h !! df) as [d|] eqn:Hdf.
  - destruct (evaluar_fila_casos h df d columna_nula columnas_clave umbral Hdf)
      as [[_ ->]|[(s & _ & _ & ->)|(s & d2 & d3 & d4 & _ & _ & ->)]];
      simpl; [done|by eexists..].
  - unfold evaluar_fila. rewrite (bind_Raise _ _ h h NameError); [done|].
    unfold leer. by rewrite Hdf.
Qed.

(** X24: when the frame lacks the target column or one of the key
    columns, [evaluar_fila] raises [KeyError]. *)
Theorem evaluar_fila_sin_columna (h : almacen) df d columna_nula columnas_clave
    umbral :
  h !! df = Some d →
  ¬ Forall (λ c, c ∈ columns d) (columna_nula :: columnas_clave) →
  (evaluar_fila df columna_nula columnas_clave umbral h).1 = Raise KeyError.
Proof.
  intros Hdf Hno.
  destruct (evaluar_fila_casos h df d columna_nula columnas_clave umbral Hdf)
    as [[_ ->]|[(s & _ & _ & ->)|(s & d2 & d3 & d4 & Hs & Hall & _)]];
    [done..|].
  destruct Hno. constructor; [|done]. apply elem_of_columns.
  by rewrite (getitem_Ok _ _ _ Hs).
Qed.

Lemma evaluar_fila_sin_columna_witness :
  (evaluar_fila 0%nat "x" ["a"; "c"] (Q2Qc (7 # 10)) [ej_filas]).1
  = Raise KeyError.
Proof.
  apply (evaluar_fila_sin_columna [ej_filas] 0%nat ej_filas); [reflexivity|].
  intros H. apply Forall_cons_1 in H as [_ H]. apply Forall_cons_1 in H as [_ H].
  apply Forall_cons_1 in H as [H _]. vm_compute in H.
  repeat (apply elem_of_cons in H as [H|H]; [done|]). by apply elem_of_nil in H.
Defined.

(** ** [evaluar_fila]: the rows it returns *)

Lemma filtrar_false {A} (m : list bool) (l : list A) :
  (∀ b, b ∈ m → b = false) → filtrar m l = [].
Proof.
  revert l. induction m as [|b m IH]; intros l Hm; [done|].
  destruct l as [|x l]; [apply filtrar_nil_r|].
  rewrite filtrar_cons, (Hm b) by left. apply IH. intros b' Hb'.
  apply Hm. by right.
Qed.

Lemma filtrar_sublist {A} (m : list bool) (l : list A) :
  filtrar m l `sublist_of` l.
Proof.
  revert l. induction m as [|b m IH]; intros l; [apply sublist_nil_l|].
  destruct l as [|x l]; [by rewrite filtrar_nil_r|].
  rewrite filtrar_cons. destruct b; [by apply sublist_skip|by apply sublist_cons].
Qed.

(** A mask that has more rows selects more rows. *)
Lemma filtrar_mono {A} (m1 m2 : list bool) (l : list A) :
  (∀ i, m1 !! i = Some true → m2 !! i = Some true) →
  filtrar m1 l `sublist_of` filtrar m2 l.
Proof.
  revert m2 l. induction m1 as [|b1 m1 IH]; intros m2 l Hm;
    [apply sublist_nil_l|].
  destruct l as [|x l]; [by rewrite !filtrar_nil_r|].
  destruct m2 as [|b2 m2].
  { rewrite filtrar_false; [apply sublist_nil_l|].
    intros b [i Hi]%list_elem_of_lookup. destruct b; [|done].
    by specialize (Hm i Hi). }
  rewrite !filtrar_cons.
  assert (filtrar m1 l `sublist_of` filtrar m2 l) as Hsub.
  { apply IH. intros i Hi. apply (Hm (S i) Hi). }
  destruct b1.
  - specialize (Hm 0%nat eq_refl). injection Hm as ->. by apply sublist_skip.
  - destruct b2; [by apply sublist_cons|done].
Qed.

Lemma length_filtrar {A B} (m : list bool) (l : list A) (k : list B) :
  length l = length k → length (filtrar m l) = length (filtrar m k).
Proof.
  revert l k. induction m as [|b m IH]; intros [|x l] [|y k] Hlen; try done.
  rewrite !filtrar_cons. simpl in Hlen.
  destruct b; simpl; rewrite (IH l k) by lia; done.
Qed.

Lemma bien_formado_filas d m :
  bien_formado d = true → bien_formado (filas d m) = true.
Proof.
  intros Hwf. unfold bien_formado. apply forallb_forall.
  intros [c s'] Hin%list_elem_of_In. simpl in *.
  apply list_elem_of_fmap in Hin as ([c0 s] & [= -> ->] & Hin).
  apply Nat.eqb_eq. rewrite celdas_seleccionar. apply length_filtrar.
  by eapply bien_formado_elem_of.
Qed.

Lemma bien_formado_drop d c :
  bien_formado d = true → bien_formado (drop d c) = true.
Proof.
  intros Hwf. unfold bien_formado. apply forallb_forall.
  intros [c0 s] Hin%list_elem_of_In. simpl in *.
  apply list_elem_of_filter in Hin as [_ Hin].
  apply Nat.eqb_eq. by eapply bien_formado_elem_of.
Qed.

Lemma obtener_drop d c c' :
  c' ≠ c → obtener c' (datos (drop d c)) = obtener c' (datos d).
Proof.
  intros Hne. simpl. induction (datos d) as [|[c0 s0] l IH]; [done|].
  rewrite filter_cons, obtener_cons. simpl.
  destruct (decide (c0 = c')) as [->|Hne0].
  - rewrite decide_True by done. by rewrite obtener_cons, decide_True.
  - case_decide; [|done]. by rewrite obtener_cons, decide_False.
Qed.

Lemma dividir_no_negativo n m x : dividir n m = Some x → 0 ≤ x.
Proof.
  unfold dividir. destruct m as [|m]; [done|]. intros [= <-].
  apply Qcmult_nonneg_nonneg.
  - rewrite <-Z2Qc_inj_0. apply (proj1 (Z2Qc_inj_le _ _)). lia.
  - apply Qclt_le_weak, Qcinv_pos. rewrite <-Z2Qc_inj_0.
    apply (proj1 (Z2Qc_inj_lt _ _)). lia.
Qed.

Lemma mascara_lookup s cols n_clave umbral n i :
  mascara s cols n_clave umbral n !! i = Some true →
  isnull s !! i = Some true
  ∧ ∃ cuenta x, contar_no_nulos cols n !! i = Some cuenta
                ∧ dividir cuenta n_clave = Some x ∧ x < umbral.
Proof.
  unfold mascara. rewrite lookup_zip_with.
  destruct (isnull s !! i) as [b|]; simpl; [|done].
  destruct (contar_no_nulos cols n !! i) as [cuenta|]; simpl; [|done].
  destruct b; simpl; [|done].
  destruct (dividir cuenta n_clave) as [x|] eqn:Hd; [|done].
  intros [= Hx%bool_decide_eq_true]. split; [done|]. by exists cuenta, x.
Qed.

(** The frame of the result, whatever the frame has for columns, and the
    new reference to it. *)
Lemma evaluar_fila_resultado (h : almacen) df d columna_nula columnas_clave
    umbral s cols :
  h !! df = Some d → bien_formado d = true →
  getitem d columna_nula = Ok s →
  recorrer (getitem d) columnas_clave = Ok cols →
  ∃ r (h' : almacen),
    evaluar_fila df columna_nula columnas_clave umbral h = (Ok r, h')
    ∧ h !! r = None
    ∧ h' !! r
      = Some (drop (filas d (mascara s cols (length columnas_clave) umbral
                               (length (index d))))
                proporcion_datos_importantes).
Proof.
  intros Hdf Hwf Hs Hcols.
  destruct (evaluar_fila_spec _ _ _ _ _ umbral _ _ Hdf Hwf Hs Hcols)
    as (d1 & d2 & d3 & Hcall).
  eexists _, _. split; [exact Hcall|]. split.
  - apply lookup_ge_None. lia.
  - rewrite lookup_app_r by lia.
    by replace (length h + 3 - length h)%nat with 3%nat by lia.
Qed.

(** X25: with no key column at all, [evaluar_fila] returns a frame
    without rows, whatever the threshold: the share is 0 / 0, which is NaN
    and is below no threshold. *)
Theorem evaluar_fila_sin_claves (h : almacen) df d columna_nula umbral :
  h !! df = Some d → bien_formado d = true → columna_nula ∈ columns d →
  ∃ r (h' : almacen) d',
    evaluar_fila df columna_nula [] umbral h = (Ok r, h')
    ∧ h' !! r = Some d'
    ∧ index d' = [].
Proof.
  intros Hdf Hwf [s Hs]%getitem_is_Ok.
  destruct (evaluar_fila_resultado _ _ _ _ [] umbral _ [] Hdf Hwf Hs eq_refl)
    as (r & h' & Hcall & Hnew & Hr).
  eexists _, _, _. split; [exact Hcall|]. split; [exact Hr|]. simpl.
  apply filtrar_false. intros b [i Hi]%list_elem_of_lookup.
  destruct b; [|done].
  apply mascara_lookup in Hi as (_ & cuenta & x & _ & Hx & _). done.
Qed.

Lemma evaluar_fila_sin_claves_witness :
  ∃ r (h' : almacen) d',
    evaluar_fila 0%nat "x" [] (Qc_of_Z 2) [ej_filas] = (Ok r, h')
    ∧ h' !! r = Some d'
    ∧ index d' = [].
Proof.
  apply (evaluar_fila_sin_claves [ej_filas] 0%nat ej_filas);
    [reflexivity..|]. vm_compute. left.
Defined.

(** X26: the frame [evaluar_fila] returns is made of rows of the frame it
    was given, in their order, each of them with a null in the target
    column, and it has one value per row in every column. *)
Theorem evaluar_fila_filas (h : almacen) df d columna_nula columnas_clave
    umbral :
  h !! df = Some d → bien_formado d = true →
  Forall (λ c, c ∈ columns d) (columna_nula :: columnas_clave) →
  columna_nula ≠ proporcion_datos_importantes →
  ∃ r (h' : almacen) d' s',
    evaluar_fila df columna_nula columnas_clave umbral h = (Ok r, h')
    ∧ h !! r = None
    ∧ h' !! r = Some d'
    ∧ index d' `sublist_of` index d
    ∧ bien_formado d' = true
    ∧ getitem d' columna_nula = Ok s'
    ∧ ∀ x, x ∈ celdas s' → x = None.
Proof.
  intros Hdf Hwf [[s Hs]%getitem_is_Ok [cols Hcols]%recorrer_getitem_Ok]%Forall_cons_1
    Hne.
  destruct (evaluar_fila_resultado _ _ _ _ _ umbral _ _ Hdf Hwf Hs Hcols)
    as (r & h' & Hcall & Hnew & Hr).
  set (m := mascara _ _ _ _ _) in Hr.
  eexists _, _, _, (seleccionar m s). split; [exact Hcall|].
  split; [exact Hnew|]. split; [exact Hr|]. split; [apply filtrar_sublist|].
  split; [by apply bien_formado_drop, bien_formado_filas|]. split.
  - unfold getitem. rewrite obtener_drop, obtener_filas by done.
    by rewrite (getitem_Ok _ _ _ Hs).
  - intros x Hx. rewrite celdas_seleccionar in Hx. unfold filtrar in Hx.
    apply list_elem_of_fmap in Hx as ([b y] & -> & Hin).
    apply list_elem_of_filter in Hin as [Hb Hin]. simpl in *. subst b.
    apply elem_of_lookup_zip_with in Hin as (i & b & y' & [= <- <-] & Hi & Hy).
    apply mascara_lookup in Hi as [Hi _]. unfold isnull in Hi.
    rewrite list_lookup_fmap, Hy in Hi. simpl in Hi.
    injection Hi as Hi. by apply bool_decide_eq_true in Hi.
Qed.

Lemma evaluar_fila_filas_witness :
  ∃ r (h' : almacen) d' s',
    evaluar_fila 0%nat "x" ["a"; "b"] (Q2Qc (7 # 10)) [ej_filas] = (Ok r, h')
    ∧ [ej_filas] !! r = None
    ∧ h' !! r = Some d'
    ∧ index d' `sublist_of` index ej_filas
    ∧ bien_formado d' = true
    ∧ getitem d' "x" = Ok s'
    ∧ ∀ x, x ∈ celdas s' → x = None.
Proof.
  apply (evaluar_fila_filas [ej_filas] 0%nat ej_filas "x" ["a"; "b"]);
    [reflexivity|reflexivity|repeat constructor|done].
Defined.

(** ** [evaluar_fila]: the threshold *)

(** X27: with a threshold of zero, or below, [evaluar_fila] returns a
    frame without rows: a share of columns is never negative. *)
Theorem evaluar_fila_umbral_cero (h : almacen) df d columna_nula columnas_clave
    umbral :
  h !! df = Some d → bien_formado d = true →
  Forall (λ c, c ∈ columns d) (columna_nula :: columnas_clave) →
  umbral ≤ 0 →
  ∃ r (h' : almacen) d',
    evaluar_fila df columna_nula columnas_clave umbral h = (Ok r, h')
    ∧ h' !! r = Some d'
    ∧ index d' = [].
Proof.
  intros Hdf Hwf [[s Hs]%getitem_is_Ok [cols Hcols]%recorrer_getitem_Ok]%Forall_cons_1
    Hu.
  destruct (evaluar_fila_resultado _ _ _ _ _ umbral _ _ Hdf Hwf Hs Hcols)
    as (r & h' & Hcall & _ & Hr).
  eexists _, _, _. split; [exact Hcall|]. split; [exact Hr|]. simpl.
  apply filtrar_false. intros b [i Hi]%list_elem_of_lookup.
  destruct b; [|done].
  apply mascara_lookup in Hi as (_ & cuenta & x & _ & Hx & Hlt).
  apply dividir_no_negativo in Hx.
  destruct (Qclt_not_le _ _ Hlt). by transitivity 0.
Qed.

Lemma evaluar_fila_umbral_cero_witness :
  ∃ r (h' : almacen) d',
    evaluar_fila 0%nat "x" ["a"; "b"] 0 [ej_filas] = (Ok r, h')
    ∧ h' !! r = Some d'
    ∧ index d' = [].
Proof.
  apply (evaluar_fila_umbral_cero [ej_filas] 0%nat ej_filas "x" ["a"; "b"]);
    [reflexivity|reflexivity|repeat constructor|done].
Defined.

Lemma contar_no_nulos_length cols n :
  Forall (λ s, length (celdas s) = n) cols →
  length (contar_no_nulos cols n) = n.
Proof.
  unfold contar_no_nulos. induction 1 as [|s cols Hs _ IH]; simpl.
  { by rewrite length_replicate. }
  rewrite length_zip_with, IH, length_fmap. unfold notnull.
  rewrite length_fmap, celdas_isnull_length. lia.
Qed.

(** X28: with a threshold above 1, and at least one key column,
    [evaluar_fila] returns every row whose target is null: the share of
    key columns with a value is at most 1. *)
Theorem evaluar_fila_umbral_uno (h : almacen) df d columna_nula columnas_clave
    umbral s :
  h !! df = Some d → bien_formado d = true →
  getitem d columna_nula = Ok s →
  Forall (λ c, c ∈ columns d) columnas_clave → columnas_clave ≠ [] →
  1 < umbral →
  ∃ r (h' : almacen),
    evaluar_fila df columna_nula columnas_clave umbral h = (Ok r, h')
    ∧ h' !! r
      = Some (drop (filas d (isnull s)) proporcion_datos_importantes).
Proof.
  intros Hdf Hwf Hs [cols Hcols]%recorrer_getitem_Ok Hne Hu.
  destruct (evaluar_fila_resultado _ _ _ _ _ umbral _ _ Hdf Hwf Hs Hcols)
    as (r & h' & Hcall & _ & Hr).
  eexists _, _. split; [exact Hcall|]. rewrite Hr. do 3 f_equal.
  pose proof (bien_formado_Forall _ _ _ Hwf Hcols) as Hall.
  pose proof (recorrer_length _ _ _ Hcols) as Hn.
  pose proof (isnull_length _ _ _ Hwf (getitem_Ok _ _ _ Hs)) as Hlen.
  apply list_eq. intros i. unfold mascara. rewrite lookup_zip_with.
  destruct (isnull s !! i) as [b|] eqn:Hb; simpl; [|done].
  assert (i < length (index d))%nat as Hi
    by (rewrite <-Hlen; by eapply lookup_lt_Some).
  rewrite (contar_no_nulos_lookup _ _ _ Hi Hall). simpl. f_equal.
  set (cuenta := length (filter _ cols)).
  assert (cuenta ≤ length columnas_clave)%nat as Hle.
  { rewrite <-Hn. apply length_filter. }
  destruct (dividir cuenta (length columnas_clave)) as [x|] eqn:Hx.
  - destruct (dividir_rango _ _ _ Hle Hx) as [_ H1].
    rewrite bool_decide_eq_true_2; [by rewrite andb_true_r|].
    by eapply Qcle_lt_trans.
  - unfold dividir in Hx. destruct columnas_clave; done.
Qed.

Lemma evaluar_fila_umbral_uno_witness :
  ∃ r (h' : almacen),
    evaluar_fila 0%nat "x" ["a"; "b"] (Qc_of_Z 2) [ej_filas] = (Ok r, h')
    ∧ h' !! r
      = Some (drop (filas ej_filas (isnull (SNum [None; num 3; None; None])))
                proporcion_datos_importantes).
Proof.
  apply (evaluar_fila_umbral_uno [ej_filas] 0%nat ej_filas "x" ["a"; "b"]);
    [reflexivity|reflexivity|reflexivity|repeat constructor|done|done].
Defined.

(** X29: raising the threshold only adds rows: the rows [evaluar_fila]
    returns for a threshold are among the rows it returns for a larger
    one, in the same order. *)
Theorem evaluar_fila_umbral_mayor (h : almacen) df d columna_nula columnas_clave
    umbral1 umbral2 :
  h !! df = Some d → bien_formado d = true →
  Forall (λ c, c ∈ columns d) (columna_nula :: columnas_clave) →
  umbral1 ≤ umbral2 →
  ∃ r1 r2 (h1 h2 : almacen) d1 d2,
    evaluar_fila df columna_nula columnas_clave umbral1 h = (Ok r1, h1)
    ∧ evaluar_fila df columna_nula columnas_clave umbral2 h = (Ok r2, h2)
    ∧ h1 !! r1 = Some d1 ∧ h2 !! r2 = Some d2
    ∧ index d1 `sublist_of` index d2.
Proof.
  intros Hdf Hwf [[s Hs]%getitem_is_Ok [cols Hcols]%recorrer_getitem_Ok]%Forall_cons_1
    Hu.
  destruct (evaluar_fila_resultado _ _ _ _ _ umbral1 _ _ Hdf Hwf Hs Hcols)
    as (r1 & h1 & Hcall1 & _ & Hr1).
  destruct (evaluar_fila_resultado _ _ _ _ _ umbral2 _ _ Hdf Hwf Hs Hcols)
    as (r2 & h2 & Hcall2 & _ & Hr2).
  eexists _, _, _, _, _, _. split; [exact Hcall1|]. split; [exact Hcall2|].
  split; [exact Hr1|]. split; [exact Hr2|]. simpl.
  apply filtrar_mono. intros i Hi.
  apply mascara_lookup in Hi as (Hnul & cuenta & x & Hc & Hx & Hlt).
  unfold mascara. rewrite lookup_zip_with, Hnul, Hc. simpl. rewrite Hx.
  rewrite bool_decide_eq_true_2; [done|]. by eapply Qclt_le_trans.
Qed.

Lemma evaluar_fila_umbral_mayor_witness :
  ∃ r1 r2 (h1 h2 : almacen) d1 d2,
    evaluar_fila 0%nat "x" ["a"; "b"] (Q2Qc (1 # 2)) [ej_filas] = (Ok r1, h1)
    ∧ evaluar_fila 0%nat "x" ["a"; "b"] (Q2Qc (7 # 10)) [ej_filas] = (Ok r2, h2)
    ∧ h1 !! r1 = Some d1 ∧ h2 !! r2 = Some d2
    ∧ index d1 `sublist_of` index d2.
Proof.
  apply (evaluar_fila_umbral_mayor [ej_filas] 0%nat ej_filas "x" ["a"; "b"]);
    [reflexivity|reflexivity|repeat constructor|done].
Defined.
